(** * sentry-wizard: the Cordova patching engine and the package-version check

    A shallow embedding of [src/lib/Steps/Integrations/Cordova.ts] and
    [src/lib/Helper/Package.ts].

    Layout: the first half of the file holds the definitions (JavaScript
    strings and regular expressions, insertion-ordered objects, the semver
    check, the project descriptor with the Apply and Revert handlers, the
    platform orchestrator); the second half holds the theorems. *)

From Stdlib Require Import String Ascii.
From stdpp Require Import base option list gmap countable.

Set Default Proof Using "Type".

(* ===================================================================== *)
(** * Part I: definitions *)
(* ===================================================================== *)

(** ** JavaScript strings

    A JavaScript string is a sequence of UTF-16 code units.  Code units are
    kept as [N]; [js] embeds an ASCII literal. *)
Module Js.

Abbreviation jsstring := (list N) (only parsing).

Definition js (s : string) : jsstring :=
  map N_of_ascii (list_ascii_of_string s).
Arguments js : simpl never.

(** [!!s] for a string: the empty string is the only falsy one. *)
Definition truthy_string (s : jsstring) : bool :=
  match s with [] => false | _ :: _ => true end.

(** [!!v] for a value that is a string, [null] or [undefined]. *)
Definition truthy (v : option jsstring) : bool :=
  match v with Some s => truthy_string s | None => false end.

(** [a === b] on strings. *)
Definition str_eqb (a b : jsstring) : bool := bool_decide (a = b).

(** What the handlers can throw or reject with. *)
Inductive error : Type :=
  | TypeError
  | ParseError
  | WriteError
  | DirectoryCreateError
  | OtherError (msg : jsstring).

(** A computation that returns or throws. *)
Inductive result (A : Type) : Type :=
  | Ok (a : A)
  | Throw (e : error).
Arguments Ok {A} a.
Arguments Throw {A} e.

Definition bind {A B : Type} (m : result A) (k : A -> result B) : result B :=
  match m with
  | Ok a => k a
  | Throw e => Throw e
  end.

(** The console helpers of [Helper/Logging] print a line; the model keeps the
    lines printed, by colour. *)
Inductive log_line : Type :=
  | Red (msg : jsstring)
  | Green (msg : jsstring)
  | Dim (msg : jsstring)
  | Debug (msg : jsstring).

End Js.

(** ** Objects used as maps

    [proj.hash.project.objects.<section>] is a plain object keyed by id.
    The keys are ids of 24 hexadecimal digits and their [_comment]
    companions, none of them an array index, so [Object.keys] and
    [for ... in] enumerate them in insertion order: an object is kept as its
    entries in that order, one per key. *)
Module JsObject.
Import Js.

Abbreviation obj V := (list (list N * V)) (only parsing).

Section Operations.
Context {V : Type}.

(** [o[k]]; [None] is [undefined]. *)
Fixpoint obj_get (k : jsstring) (o : obj V) : option V :=
  match o with
  | [] => None
  | (k', v) :: o' => if decide (k' = k) then Some v else obj_get k o'
  end.

(** [o[k] = v]: an existing key keeps its place, a new key goes last. *)
Fixpoint obj_set (k : jsstring) (v : V) (o : obj V) : obj V :=
  match o with
  | [] => [(k, v)]
  | (k', v') :: o' =>
      if decide (k' = k) then (k, v) :: o' else (k', v') :: obj_set k v o'
  end.

(** [delete o[k]]. *)
Definition obj_delete (k : jsstring) (o : obj V) : obj V :=
  filter (fun kv => kv.1 <> k) o.

(** [Object.keys(o)]. *)
Definition obj_keys (o : obj V) : list jsstring := map fst o.

End Operations.

End JsObject.

(** ** Regular expressions

    The three literals of [Cordova.ts] use literal characters, the class
    escape [\s] under [+], the assertion [\b] and the flag [i]; a pattern is
    the sequence of its atoms. *)
Module RegExp.
Import Js.
Local Open Scope N_scope.

(** [\s]: WhiteSpace and LineTerminator code units. *)
Definition is_space (c : N) : bool :=
  (c =? 9) || (c =? 10) || (c =? 11) || (c =? 12) || (c =? 13) || (c =? 32)
  || (c =? 160) || (c =? 5760) || ((8192 <=? c) && (c <=? 8202))
  || (c =? 8232) || (c =? 8233) || (c =? 8239) || (c =? 8287)
  || (c =? 12288) || (c =? 65279).

(** [\w]: [A-Za-z0-9_]. *)
Definition is_word (c : N) : bool :=
  ((97 <=? c) && (c <=? 122)) || ((65 <=? c) && (c <=? 90))
  || ((48 <=? c) && (c <=? 57)) || (c =? 95).

(** Canonicalize under flag [i] without flag [u]: a code unit is compared by
    its upper-case form, and a code unit outside ASCII never canonicalizes to
    an ASCII one; against an ASCII pattern character only the ASCII letters
    fold. *)
Definition canonicalize (c : N) : N :=
  if (97 <=? c) && (c <=? 122) then c - 32 else c.

Inductive atom : Type :=
  | Lit (c : N)          (* a pattern character *)
  | LitI (c : N)         (* a pattern character under flag i *)
  | SpacePlus            (* \s+ *)
  | WordBoundary.        (* \b *)

Definition pattern : Type := list atom.

Definition lits (s : jsstring) : pattern := map Lit s.
Definition litsI (s : jsstring) : pattern := map LitI s.

Definition is_word_at (c : option N) : bool :=
  match c with Some x => is_word x | None => false end.

(** Backtracking match of the whole pattern at the current position; [prev]
    is the code unit before the position, for [\b]. *)
Fixpoint match_here (re : pattern) (prev : option N) (s : jsstring) {struct re} : bool :=
  match re with
  | [] => true
  | Lit c :: re' =>
      match s with
      | x :: s' => (x =? c) && match_here re' (Some x) s'
      | [] => false
      end
  | LitI c :: re' =>
      match s with
      | x :: s' => (canonicalize x =? canonicalize c) && match_here re' (Some x) s'
      | [] => false
      end
  | SpacePlus :: re' =>
      (fix run (s : jsstring) : bool :=
         match s with
         | x :: s' => is_space x && (run s' || match_here re' (Some x) s')
         | [] => false
         end) s
  | WordBoundary :: re' =>
      xorb (is_word_at prev) (is_word_at (head s)) && match_here re' prev s
  end.

(** Try every start position, left to right. *)
Fixpoint search (re : pattern) (prev : option N) (s : jsstring) : bool :=
  match_here re prev s ||
  match s with
  | x :: s' => search re (Some x) s'
  | [] => false
  end.

(** [str.match(re)] is non-null, and [re.test(str)] on a fresh literal is
    true, exactly when the pattern matches somewhere. *)
Definition test (re : pattern) (s : jsstring) : bool := search re None s.

(** The code unit before the position reached after reading [read] from a
    position that has [prev] before it. *)
Definition before_position (prev : option N) (read : jsstring) : option N :=
  match list.last read with
  | Some c => Some c
  | None => prev
  end.

End RegExp.

(** ** [Helper/Package.ts] *)
Module Package.
Import Js.

(** The four functions imported from the [semver] package. [valid] and
    [validRange] return the cleaned string or [null]. *)
Class Semver : Type := {
  valid : jsstring -> option jsstring;
  validRange : jsstring -> option jsstring;
  satisfies : jsstring -> jsstring -> bool;
  subset : jsstring -> jsstring -> bool;
}.

Record PackageDotJson : Type := {
  dependencies : option (gmap jsstring jsstring);
  devDependencies : option (gmap jsstring jsstring);
}.

(** [appPackage?.<field>?.[packageName] ?? ''] *)
Definition listed_version (appPackage : option PackageDotJson)
    (field : PackageDotJson -> option (gmap jsstring jsstring))
    (packageName : jsstring) : jsstring :=
  match appPackage with
  | None => []
  | Some pkg =>
      match field pkg with
      | None => []
      | Some deps => default [] (deps !! packageName)
      end
  end.

Section WithSemver.
Context `{Semver}.

Definition fulfillsVersionRange (version acceptableVersions : jsstring)
    (canBeLatest : bool) : bool :=
  if str_eqb version (js "latest") then canBeLatest
  else
    let '(cleanedUserVersion, isRange) :=
      if truthy (valid version) then (valid version, Some false)
      else if truthy (validRange version) then (validRange version, Some true)
      else (None, None) in
    match cleanedUserVersion with
    | Some cleaned =>
        truthy_string cleaned &&
        (if default false isRange
         then subset cleaned acceptableVersions
         else satisfies cleaned acceptableVersions)
    | None => false
    end.

Definition checkPackageVersion (appPackage : option PackageDotJson)
    (packageName acceptableVersions : jsstring) (canBeLatest : bool)
    : bool * list log_line :=
  let depsVersion := listed_version appPackage dependencies packageName in
  let devDepsVersion := listed_version appPackage devDependencies packageName in
  if negb (truthy_string depsVersion) && negb (truthy_string devDepsVersion) then
    (false,
     [Red ([10007%N] ++ js " " ++ packageName ++ js " isn't in your dependencies.");
      Red (js "  Please install it with yarn/npm.")])
  else if negb (fulfillsVersionRange depsVersion acceptableVersions canBeLatest)
          && negb (fulfillsVersionRange devDepsVersion acceptableVersions canBeLatest)
  then
    (false,
     [Red ([10007%N] ++ js " Your `package.json` specifies a version of `"
           ++ packageName ++ js "` outside of the compatible version range "
           ++ acceptableVersions ++ js "." ++ [10%N])])
  else
    (true,
     [Green ([10003%N] ++ js " A compatible version of `" ++ packageName
             ++ js "` is specified in `package.json`.")]).

(** What it is for a version string to fulfill the acceptable range, case by
    case:
    the literal [latest] when [canBeLatest] holds, a valid exact version that
    satisfies the range, a valid range that is a subset of it, and nothing
    else. *)
Inductive Fulfills (acceptableVersions : jsstring) (canBeLatest : bool)
    : jsstring -> Prop :=
  | fulfills_latest :
      canBeLatest = true ->
      Fulfills acceptableVersions canBeLatest (js "latest")
  | fulfills_version version cleaned :
      version <> js "latest" ->
      valid version = Some cleaned -> cleaned <> [] ->
      satisfies cleaned acceptableVersions = true ->
      Fulfills acceptableVersions canBeLatest version
  | fulfills_range version cleaned :
      version <> js "latest" ->
      truthy (valid version) = false ->
      validRange version = Some cleaned -> cleaned <> [] ->
      subset cleaned acceptableVersions = true ->
      Fulfills acceptableVersions canBeLatest version.

(** [hasPackageInstalled] *)
Definition hasPackageInstalled (appPackage : PackageDotJson)
    (packageName : jsstring) : bool :=
  let depsVersion :=
    match dependencies appPackage with Some deps => deps !! packageName | None => None end in
  let devDepsVersion :=
    match devDependencies appPackage with Some deps => deps !! packageName | None => None end in
  truthy depsVersion || truthy devDepsVersion.

End WithSemver.

(** A small stand-in for [semver], enough to run the check on examples: it
    knows the version [1.2.3] and the ranges [^1.0.0] and [*]. *)
Definition toy_semver : Semver :=
  {| valid := fun v => if str_eqb v (js "1.2.3") then Some v else None;
     validRange := fun v =>
       if str_eqb v (js "^1.0.0") then Some v
       else if str_eqb v [] then Some (js "*")
       else None;
     satisfies := fun v range =>
       str_eqb v (js "1.2.3") && (str_eqb range (js "^1.0.0") || str_eqb range (js "*"));
     subset := fun sub range => str_eqb sub range || str_eqb range (js "*") |}.

End Package.

(** ** The project descriptor of the [xcode] package

    The descriptor as [Cordova.ts] reads it: the [PBXShellScriptBuildPhase]
    and [PBXNativeTarget] sections of [proj.hash.project.objects], the first
    target, and every other section carried along untouched. *)
Module Xcode.
Import Js JsObject.

(** An object of the [PBXShellScriptBuildPhase] section.  The format gives
    every such object a [shellScript]; [isa] is kept as parsed because
    [patchXcodeProj] tests it. *)
Record ShellScriptBuildPhase : Type := {
  isa : jsstring;
  name : jsstring;
  shellPath : jsstring;
  shellScript : jsstring;
  otherFields : obj jsstring;
}.

(** A section maps an id to its object and [id + "_comment"] to a string. *)
Inductive phase_entry : Type :=
  | PhaseComment (text : jsstring)
  | PhaseObject (phase : ShellScriptBuildPhase).

(** An element of a target's [buildPhases] array. *)
Record PhaseRef : Type := {
  value : jsstring;
  comment : jsstring;
}.

Record NativeTarget : Type := {
  buildPhases : option (list PhaseRef);
  targetFields : obj jsstring;
}.

Inductive target_entry : Type :=
  | TargetComment (text : jsstring)
  | TargetObject (target : NativeTarget).

Record Project : Type := {
  PBXShellScriptBuildPhase : option (obj phase_entry);
  PBXNativeTarget : obj target_entry;
  (** [proj.getFirstTarget().uuid] *)
  firstTargetUuid : jsstring;
  (** the other sections of [proj.hash.project.objects], by section name *)
  otherSections : obj (obj jsstring);
}.

(** [proj.parse] and [proj.writeSync].  [parse] hands the callback an error
    or fills the descriptor from the bytes of the file. *)
Class Library : Type := {
  parse : jsstring -> result Project;
  writeSync : Project -> jsstring;
}.

Definition comment_key (id : jsstring) : jsstring := id ++ js "_comment".

(** [target.buildPhases.push(ref)] when the target has the array. *)
Definition push_phase (ref : PhaseRef) (entry : target_entry) : target_entry :=
  match entry with
  | TargetObject t =>
      match buildPhases t with
      | Some phases =>
          TargetObject {| buildPhases := Some (phases ++ [ref]);
                          targetFields := targetFields t |}
      | None => entry
      end
  | TargetComment _ => entry
  end.

(** Modelled from the spec: [addBuildPhase] belongs to the [xcode] package,
    which is not among the sources.  After §4.2 and §3 it creates a new build
    phase of the given kind under a new id, with the label, shell path and
    script it is given, pairs it with the [id + "_comment"] record, and
    appends the id to the [buildPhases] sequence of the selected target: the
    one named, or the first target when none is.  [uuid] is the id the
    package generates; the call in [Cordova.ts] passes no file paths. *)
Definition addBuildPhase (uuid buildPhaseType label : jsstring)
    (target : option jsstring) (shellPath_ shellScript_ : jsstring)
    (proj : Project) : Project :=
  let buildPhase :=
    {| isa := buildPhaseType; name := label; shellPath := shellPath_;
       shellScript := shellScript_; otherFields := [] |} in
  let section := default [] (PBXShellScriptBuildPhase proj) in
  let section := obj_set uuid (PhaseObject buildPhase) section in
  let section := obj_set (comment_key uuid) (PhaseComment label) section in
  let targetUuid := default (firstTargetUuid proj) target in
  let targets :=
    match obj_get targetUuid (PBXNativeTarget proj) with
    | Some entry =>
        obj_set targetUuid
          (push_phase {| value := uuid; comment := label |} entry)
          (PBXNativeTarget proj)
    | None => PBXNativeTarget proj
    end in
  {| PBXShellScriptBuildPhase := Some section;
     PBXNativeTarget := targets;
     firstTargetUuid := firstTargetUuid proj;
     otherSections := otherSections proj |}.

End Xcode.

(** ** [Steps/Integrations/Cordova.ts]: the patch handlers *)
Module Cordova.
Import Js JsObject RegExp Xcode.

Definition folderPrefix : jsstring := js "platforms".

(** [/sentry-cli\s+upload-dsym/], in [addNewXcodeBuildPhaseForSymbols] *)
Definition apply_pattern : pattern :=
  lits (js "sentry-cli") ++ [SpacePlus] ++ lits (js "upload-dsym").

(** [/@sentry\/cli\/bin\/sentry-cli\s+upload-dsym\b/], in
    [unpatchXcodeBuildScripts] *)
Definition revert_pattern : pattern :=
  lits (js "@sentry/cli/bin/sentry-cli") ++ [SpacePlus]
  ++ lits (js "upload-dsym") ++ [WordBoundary].

(** [/sentry-cli/gi], in [shouldConfigurePlatform] *)
Definition precheck_pattern : pattern := litsI (js "sentry-cli").

(** The script body and label [addNewXcodeBuildPhaseForSymbols] passes on;
    the source writes a backslash and an n between the two lines. *)
Definition upload_script : jsstring :=
  js "export SENTRY_PROPERTIES=sentry.properties\n"
  ++ js "../../plugins/cordova-plugin-sentry/node_modules/@sentry/cli/bin/sentry-cli upload-dsym".

Definition upload_label : jsstring := js "Upload Debug Symbols to Sentry".

(** How a handler's promise ends: [resolve()] is [Resolved None],
    [resolve(text)] is [Resolved (Some text)]; an exception thrown inside the
    parse callback settles nothing and escapes. *)
Inductive settled : Type :=
  | Resolved (newContents : option jsstring)
  | Rejected (e : error)
  | Uncaught (e : error).

(** [proj.hash.project.objects.PBXShellScriptBuildPhase || {}] *)
Definition shell_script_section (proj : Project) : obj phase_entry :=
  default [] (PBXShellScriptBuildPhase proj).

(** *** Revert *)

(** The loop over [phases] with [splice(i, 1)] and [break]. *)
Fixpoint splice_value (key : jsstring) (phases : list PhaseRef) : list PhaseRef :=
  match phases with
  | [] => []
  | ref :: rest =>
      if decide (value ref = key) then rest else ref :: splice_value key rest
  end.

(** [phases.splice] on [nativeTargets[firstTarget].buildPhases]; reading
    [buildPhases] of [undefined] throws. *)
Definition splice_first_target (firstTarget key : jsstring)
    (nativeTargets : obj target_entry) : result (obj target_entry) :=
  match obj_get firstTarget nativeTargets with
  | None => Throw TypeError
  | Some (TargetComment _) => Ok nativeTargets
  | Some (TargetObject t) =>
      match buildPhases t with
      | None => Ok nativeTargets
      | Some phases =>
          Ok (obj_set firstTarget
                (TargetObject {| buildPhases := Some (splice_value key phases);
                                 targetFields := targetFields t |})
                nativeTargets)
      end
  end.

(** One round of the loop over [Object.keys(scripts)]. *)
Definition unpatch_key (firstTarget : jsstring)
    (st : obj phase_entry * obj target_entry) (key : jsstring)
    : result (obj phase_entry * obj target_entry) :=
  let '(scripts, nativeTargets) := st in
  match obj_get key scripts with
  | None => Ok st
  | Some (PhaseComment _) => Ok st
  | Some (PhaseObject script) =>
      if test revert_pattern (shellScript script) then
        let scripts := obj_delete key scripts in
        let scripts := obj_delete (comment_key key) scripts in
        bind (splice_first_target firstTarget key nativeTargets)
             (fun nativeTargets => Ok (scripts, nativeTargets))
      else Ok st
  end.

Fixpoint unpatch_keys (firstTarget : jsstring) (keys : list jsstring)
    (st : obj phase_entry * obj target_entry)
    : result (obj phase_entry * obj target_entry) :=
  match keys with
  | [] => Ok st
  | key :: keys' =>
      bind (unpatch_key firstTarget st key) (unpatch_keys firstTarget keys')
  end.

Definition unpatchXcodeBuildScripts (proj : Project) : result Project :=
  let scripts := shell_script_section proj in
  let firstTarget := firstTargetUuid proj in
  let nativeTargets := PBXNativeTarget proj in
  bind (unpatch_keys firstTarget (obj_keys scripts) (scripts, nativeTargets))
       (fun '(scripts', nativeTargets') =>
          Ok {| PBXShellScriptBuildPhase :=
                  match PBXShellScriptBuildPhase proj with
                  | Some _ => Some scripts'
                  | None => None
                  end;
                PBXNativeTarget := nativeTargets';
                firstTargetUuid := firstTargetUuid proj;
                otherSections := otherSections proj |}).

(** The entries Revert acts on: the keys whose object has a script
    matching the revert pattern. *)
Definition is_match (section : obj phase_entry) (key : jsstring) : bool :=
  match obj_get key section with
  | Some (PhaseObject script) => test revert_pattern (shellScript script)
  | _ => false
  end.

Definition matching_keys (section : obj phase_entry) : list jsstring :=
  filter (fun key => is_match section key = true) (obj_keys section).

(** The pairing invariant of the data model: the key [id + "_comment"] of an
    object's id holds its comment string (or nothing), never an object. *)
Definition well_paired (section : obj phase_entry) : bool :=
  forallb
    (fun key =>
       match obj_get key section with
       | Some (PhaseObject _) =>
           match obj_get (comment_key key) section with
           | Some (PhaseObject _) => false
           | _ => true
           end
       | _ => true
       end)
    (obj_keys section).

(** What the loop has removed once it has gone through the keys [visited]:
    each matching key and its comment key. *)
Definition removed_by (section : obj phase_entry) (visited : list jsstring)
    (j : jsstring) : bool :=
  existsb
    (fun key =>
       is_match section key
       && (bool_decide (j = key) || bool_decide (j = comment_key key)))
    visited.

(** [splice_value] for each of [keys] in turn. *)
Definition spliced (keys : list jsstring) (phases : list PhaseRef) : list PhaseRef :=
  fold_left (fun l key => splice_value key l) keys phases.

Definition spliced_entry (keys : list jsstring) (entry : target_entry) : target_entry :=
  match entry with
  | TargetObject t =>
      match buildPhases t with
      | Some phases =>
          TargetObject {| buildPhases := Some (spliced keys phases);
                          targetFields := targetFields t |}
      | None => entry
      end
  | TargetComment _ => entry
  end.

(** *** Apply *)

(** One round of the loop of [patchXcodeProj] that fills [buildScripts]:
    [val = section[key]] is pushed when [val.isa] is truthy. *)
Definition scripts_of (section : obj phase_entry) (key : jsstring)
    : list ShellScriptBuildPhase :=
  match obj_get key section with
  | Some (PhaseObject val) => if truthy_string (isa val) then [val] else []
  | _ => []
  end.

Definition collect_buildScripts (proj : Project) : list ShellScriptBuildPhase :=
  let section := shell_script_section proj in
  flat_map (scripts_of section) (obj_keys section).

Definition addNewXcodeBuildPhaseForSymbols (uuid : jsstring)
    (buildScripts : list ShellScriptBuildPhase) (proj : Project) : Project :=
  if existsb (fun script => test apply_pattern (shellScript script)) buildScripts
  then proj
  else
    addBuildPhase uuid (js "PBXShellScriptBuildPhase") upload_label None
      (js "/bin/sh") upload_script proj.

Section Handlers.
Context `{Library}.

(** [parse] reads the file [contents] was read from. *)
Definition patchXcodeProj (uuid contents : jsstring) : settled :=
  match parse contents with
  | Throw err => Rejected err
  | Ok proj =>
      let buildScripts := collect_buildScripts proj in
      let proj := addNewXcodeBuildPhaseForSymbols uuid buildScripts proj in
      let newContents := writeSync proj in
      if str_eqb newContents contents then Resolved None
      else Resolved (Some newContents)
  end.

Definition unpatchXcodeProj (contents : jsstring) : settled :=
  match parse contents with
  | Throw err => Rejected err
  | Ok proj =>
      match unpatchXcodeBuildScripts proj with
      | Throw e => Uncaught e
      | Ok proj => Resolved (Some (writeSync proj))
      end
  end.

End Handlers.

(** Modelled from the spec: [patchMatchingFile] of [Helper/File] is not among
    the sources.  After §4.3, steps 5 and 6, the caller writes the new bytes
    to the file when the handler hands some back and does not write on a
    no-op; a handler that fails leaves the file as it was. *)
Definition file_after (contents : jsstring) (r : settled) : jsstring :=
  match r with
  | Resolved (Some newContents) => newContents
  | _ => contents
  end.

End Cordova.

(** ** Sample descriptors *)
Module Samples.
Import Js JsObject RegExp Xcode Cordova.

Definition ref (id label : jsstring) : PhaseRef :=
  {| value := id; comment := label |}.

Definition app_target (phases : list PhaseRef) : target_entry :=
  TargetObject {| buildPhases := Some phases;
                  targetFields := [(js "name", js "HelloCordova")] |}.

Definition other_sections : obj (obj jsstring) :=
  [(js "PBXSourcesBuildPhase", [(js "SRC", js "{isa = PBXSourcesBuildPhase; }")]);
   (js "PBXFrameworksBuildPhase", [(js "FRM", js "{isa = PBXFrameworksBuildPhase; }")])].

(** One target, no shell-script phase. *)
Definition fresh_project : Project :=
  {| PBXShellScriptBuildPhase := None;
     PBXNativeTarget :=
       [(js "T1", app_target [ref (js "SRC") (js "Sources"); ref (js "FRM") (js "Frameworks")]);
        (js "T1_comment", TargetComment (js "HelloCordova"))];
     firstTargetUuid := js "T1";
     otherSections := other_sections |}.

Definition new_uuid : jsstring := js "0123456789ABCDEF01234567".
Definition next_uuid : jsstring := js "89ABCDEF0123456701234567".

Definition upload_phase : ShellScriptBuildPhase :=
  {| isa := js "PBXShellScriptBuildPhase"; name := upload_label;
     shellPath := js "/bin/sh"; shellScript := upload_script; otherFields := [] |}.

Definition echo_phase : ShellScriptBuildPhase :=
  {| isa := js "PBXShellScriptBuildPhase"; name := js "Echo";
     shellPath := js "/bin/sh"; shellScript := js "echo done"; otherFields := [] |}.

(** The upload phase and an unrelated script, both run by the first target. *)
Definition mixed_project : Project :=
  {| PBXShellScriptBuildPhase :=
       Some [(js "UPL", PhaseObject upload_phase);
             (js "UPL_comment", PhaseComment upload_label);
             (js "ECH", PhaseObject echo_phase);
             (js "ECH_comment", PhaseComment (js "Echo"))];
     PBXNativeTarget :=
       [(js "T1", app_target [ref (js "SRC") (js "Sources");
                              ref (js "UPL") upload_label;
                              ref (js "ECH") (js "Echo");
                              ref (js "FRM") (js "Frameworks")]);
        (js "T1_comment", TargetComment (js "HelloCordova"))];
     firstTargetUuid := js "T1";
     otherSections := other_sections |}.

(** Two targets; the upload phase is run by the second one. *)
Definition two_target_project : Project :=
  {| PBXShellScriptBuildPhase :=
       Some [(js "UPL", PhaseObject upload_phase);
             (js "UPL_comment", PhaseComment upload_label)];
     PBXNativeTarget :=
       [(js "T1", app_target [ref (js "SRC") (js "Sources")]);
        (js "T1_comment", TargetComment (js "HelloCordova"));
        (js "T2", app_target [ref (js "FRM") (js "Frameworks");
                              ref (js "UPL") upload_label]);
        (js "T2_comment", TargetComment (js "Extension"))];
     firstTargetUuid := js "T1";
     otherSections := other_sections |}.

(** The first target is an aggregate target, which has no entry in
    [PBXNativeTarget]; the upload phase is there. *)
Definition aggregate_first_project : Project :=
  {| PBXShellScriptBuildPhase :=
       Some [(js "UPL", PhaseObject upload_phase);
             (js "UPL_comment", PhaseComment upload_label)];
     PBXNativeTarget :=
       [(js "T1", app_target [ref (js "SRC") (js "Sources");
                              ref (js "UPL") upload_label]);
        (js "T1_comment", TargetComment (js "HelloCordova"))];
     firstTargetUuid := js "AGG";
     otherSections := other_sections |}.

(** One target and an unrelated script, no upload phase. *)
Definition echo_project : Project :=
  {| PBXShellScriptBuildPhase :=
       Some [(js "ECH", PhaseObject echo_phase);
             (js "ECH_comment", PhaseComment (js "Echo"))];
     PBXNativeTarget :=
       [(js "T1", app_target [ref (js "SRC") (js "Sources");
                              ref (js "ECH") (js "Echo")]);
        (js "T1_comment", TargetComment (js "HelloCordova"))];
     firstTargetUuid := js "T1";
     otherSections := other_sections |}.

End Samples.

(** ** [Steps/Integrations/Cordova.ts]: the platform orchestrator *)
Module Orchestrator.
Import Js JsObject RegExp Xcode Cordova.

(** What [shouldConfigurePlatform] asks of the file system: [exists] of
    [Helper/File], [path.join], and the contents of the files a glob pattern
    locates. *)
Class FileSystem : Type := {
  exists_ : jsstring -> bool;
  path_join : list jsstring -> jsstring;
  located_contents : jsstring -> list jsstring;
}.

Section WithFileSystem.
Context `{FileSystem}.

(** Modelled from the spec: [matchesContent] of [Helper/File] is not among
    the sources.  After §4.1 it scans every file matching the glob pattern
    and returns true if any file's content matches the regular expression. *)
Definition matchesContent (globPattern : jsstring) (re : pattern) : bool :=
  existsb (test re) (located_contents globPattern).

(** The result and the lines [this.debug] prints. *)
Definition shouldConfigurePlatform (uninstall : bool) (platform : jsstring)
    : bool * list log_line :=
  let result := false in
  let '(result, printed1) :=
    if negb (exists_ (path_join [folderPrefix; platform; js "sentry.properties"]))
    then (true, [Debug (platform ++ js "/sentry.properties not exists")])
    else (result, []) in
  let '(result, printed2) :=
    if negb (matchesContent (js "**/*.xcodeproj/project.pbxproj") precheck_pattern)
    then (true, [Debug (js "**/*.xcodeproj/project.pbxproj not matched")])
    else (result, []) in
  if uninstall then (negb result, printed1 ++ printed2)
  else (result, printed1 ++ printed2).

End WithFileSystem.

(** *** [emit]: one unit of work per platform

    The callback mapped over [getPlatforms(answers)] is an async function
    whose body is a [try] block of awaited calls followed by [green], with a
    [catch] that calls [red].  A unit advances from one await to the next;
    units interleave at the awaits, and what an awaited call answers (it
    completes, or it throws) is the environment's choice. *)

Inductive instr : Type :=
  | PatchMatchingFile (globPattern : jsstring)
  | AddSentryProperties (platform : jsstring).

(** The awaited calls of the [try] block, in program order. *)
Definition unit_body (platform : jsstring) : list instr :=
  (if str_eqb platform (js "ios")
   then [PatchMatchingFile (folderPrefix ++ js "/ios/*.xcodeproj/project.pbxproj")]
   else [])
  ++ [AddSentryProperties platform].

Inductive unit_state : Type :=
  | Ready (todo : list instr)                  (* about to run the next call *)
  | Awaiting (i : instr) (todo : list instr)   (* suspended on the call's promise *)
  | Settled (rejection : option error).        (* the async function has returned *)

Inductive event : Type :=
  | Began (k : nat) (i : instr)
  | Completed (k : nat) (i : instr)
  | Failed (k : nat) (i : instr) (e : error)
  | Logged (k : nat) (line : log_line).

Definition describe (e : error) : jsstring :=
  match e with
  | TypeError => js "TypeError"
  | ParseError => js "ParseError"
  | WriteError => js "WriteError"
  | DirectoryCreateError => js "DirectoryCreateError"
  | OtherError msg => msg
  end.

(** [catch (e) { red(e); }]: the handler prints and returns normally. *)
Definition catch_handler (k : nat) (e : error) : option error * list event :=
  (None, [Logged k (Red (describe e))]).

(** One move of unit [k]; [answer] is what the awaited call answers when the
    unit is suspended on one: [None] when it completes, [Some e] when it
    throws [e]. *)
Definition unit_step (k : nat) (platform : jsstring) (answer : option error)
    (st : unit_state) : unit_state * list event :=
  match st with
  | Ready (i :: todo) => (Awaiting i todo, [Began k i])
  | Ready [] =>
      (Settled None,
       [Logged k (Green (js "Successfully set up " ++ platform ++ js " for cordova"))])
  | Awaiting i todo =>
      match answer with
      | None => (Ready todo, [Completed k i])
      | Some e =>
          let '(rejection, printed) := catch_handler k e in
          (Settled rejection, Failed k i e :: printed)
      end
  | Settled rejection => (Settled rejection, [])
  end.

Record config : Type := {
  units : list (list N * unit_state);
  trace : list event;
}.

(** The scheduler picks a unit, the environment an answer. *)
Definition sched_step (cfg : config) (choice : nat * option error) : config :=
  let '(k, answer) := choice in
  match units cfg !! k with
  | Some (platform, st) =>
      let '(st', evs) := unit_step k platform answer st in
      {| units := <[k := (platform, st')]> (units cfg);
         trace := trace cfg ++ evs |}
  | None => cfg
  end.

Definition run (schedule : list (nat * option error)) (cfg : config) : config :=
  fold_left sched_step schedule cfg.

(** [this.getPlatforms(answers).map(async (platform) => ...)] *)
Definition emit_start (platforms : list jsstring) : config :=
  {| units := map (fun platform => (platform, Ready (unit_body platform))) platforms;
     trace := [] |}.

Inductive promise : Type :=
  | Pending
  | Fulfilled
  | RejectedWith (e : error).

Definition unit_promise (st : unit_state) : promise :=
  match st with
  | Settled None => Fulfilled
  | Settled (Some e) => RejectedWith e
  | _ => Pending
  end.

(** [Promise.all]: rejected as soon as one is, fulfilled when all are. *)
Fixpoint promise_all (ps : list promise) : promise :=
  match ps with
  | [] => Fulfilled
  | RejectedWith e :: _ => RejectedWith e
  | Fulfilled :: ps' => promise_all ps'
  | Pending :: ps' =>
      match promise_all ps' with
      | RejectedWith e => RejectedWith e
      | _ => Pending
      end
  end.

(** [Promise.all(promises).then(resolve).catch(reject)] *)
Definition emit_promise (cfg : config) : promise :=
  promise_all (map (fun u => unit_promise u.2) (units cfg)).

Definition all_settled (cfg : config) : bool :=
  forallb (fun u => match u.2 with Settled _ => true | _ => false end) (units cfg).

(** [emit] without [argv.uninstall], for the platforms [getPlatforms] returns,
    after the moves of [schedule]. *)
Definition emit (platforms : list jsstring) (schedule : list (nat * option error))
    : config :=
  run schedule (emit_start platforms).

(** The unit an event belongs to. *)
Definition event_unit (ev : event) : nat :=
  match ev with
  | Began k _ | Completed k _ | Failed k _ _ | Logged k _ => k
  end.

(** Unit [k] on its own: its moves under the answers it is given, in order,
    with the events it emits. *)
Fixpoint unit_exec (k : nat) (platform : jsstring) (answers : list (option error))
    (st : unit_state) : unit_state * list event :=
  match answers with
  | [] => (st, [])
  | answer :: rest =>
      let '(st', evs) := unit_step k platform answer st in
      let '(st'', evs') := unit_exec k platform rest st' in
      (st'', evs ++ evs')
  end.

(** The events of unit [k] in a trace, in order. *)
Definition events_of (k : nat) (tr : list event) : list event :=
  filter (fun ev => event_unit ev = k) tr.

(** The answers a schedule gives to unit [k]. *)
Definition own_answers (k : nat) (schedule : list (nat * option error))
    : list (option error) :=
  map snd (filter (fun choice => choice.1 = k) schedule).

(** Moves a unit still has to make before it settles. *)
Definition steps_left (st : unit_state) : nat :=
  match st with
  | Ready todo => 2 * length todo + 1
  | Awaiting _ todo => 2 * length todo + 2
  | Settled _ => 0
  end.

Definition total_left (cfg : config) : nat :=
  foldr (fun u n => steps_left u.2 + n) 0 (units cfg).

(** A schedule that gives every unit [n] turns with the same answer. *)
Definition drain (n : nat) (answer : option error) (count : nat)
    : list (nat * option error) :=
  flat_map (fun k => replicate n (k, answer)) (seq 0 count).

Definition success_line (k : nat) (platform : jsstring) : event :=
  Logged k (Green (js "Successfully set up " ++ platform ++ js " for cordova")).

(** The async function of a unit has not thrown. *)
Definition not_rejected (st : unit_state) : Prop :=
  forall e, st <> Settled (Some e).

(** Every failure in the trace has its [red] line. *)
Definition failures_printed (tr : list event) : Prop :=
  forall k i e, Failed k i e ∈ tr -> Logged k (Red (describe e)) ∈ tr.




(** A file system for the examples: POSIX [path.join] on plain names, the
    marker of [android] present, one descriptor file that mentions the tool. *)
Definition sample_fs : FileSystem :=
  {| exists_ := fun path => str_eqb path (js "platforms/android/sentry.properties");
     path_join := fun parts =>
       match parts with
       | [] => js "."
       | first :: rest => fold_left (fun acc part => acc ++ js "/" ++ part) rest first
       end;
     located_contents := fun globPattern =>
       if str_eqb globPattern (js "**/*.xcodeproj/project.pbxproj")
       then [js "shellScript = ../node_modules/@sentry/cli/bin/Sentry-CLI upload-dsym"]
       else [] |}.

End Orchestrator.

(** ** A reference serializer

    A [Library] whose writer output parses back to the descriptor written:
    the descriptor is numbered and the number written in binary digits.  It
    serves as the concrete library of the examples. *)
Module Reference.
Import Js JsObject Xcode.

#[global] Instance error_eq_dec : EqDecision error.
Proof. solve_decision. Defined.

#[global] Instance phase_eq_dec : EqDecision ShellScriptBuildPhase.
Proof. solve_decision. Defined.

#[global] Instance phase_entry_eq_dec : EqDecision phase_entry.
Proof. solve_decision. Defined.

#[global] Instance phase_ref_eq_dec : EqDecision PhaseRef.
Proof. solve_decision. Defined.

#[global] Instance target_eq_dec : EqDecision NativeTarget.
Proof. solve_decision. Defined.

#[global] Instance target_entry_eq_dec : EqDecision target_entry.
Proof. solve_decision. Defined.

#[global] Instance project_eq_dec : EqDecision Project.
Proof. solve_decision. Defined.

#[global] Instance phase_countable : Countable ShellScriptBuildPhase.
Proof.
  refine (inj_countable'
    (fun p => (isa p, name p, shellPath p, shellScript p, otherFields p))
    (fun '(a, b, c, d, e) =>
       {| isa := a; name := b; shellPath := c; shellScript := d; otherFields := e |}) _).
  by intros [].
Defined.

#[global] Instance phase_entry_countable : Countable phase_entry.
Proof.
  refine (inj_countable'
    (fun e => match e with PhaseComment t => inl t | PhaseObject p => inr p end)
    (fun s => match s with inl t => PhaseComment t | inr p => PhaseObject p end) _).
  by intros [].
Defined.

#[global] Instance phase_ref_countable : Countable PhaseRef.
Proof.
  refine (inj_countable'
    (fun r => (value r, comment r))
    (fun '(a, b) => {| value := a; comment := b |}) _).
  by intros [].
Defined.

#[global] Instance target_countable : Countable NativeTarget.
Proof.
  refine (inj_countable'
    (fun t => (buildPhases t, targetFields t))
    (fun '(a, b) => {| buildPhases := a; targetFields := b |}) _).
  by intros [].
Defined.

#[global] Instance target_entry_countable : Countable target_entry.
Proof.
  refine (inj_countable'
    (fun e => match e with TargetComment t => inl t | TargetObject p => inr p end)
    (fun s => match s with inl t => TargetComment t | inr p => TargetObject p end) _).
  by intros [].
Defined.

#[global] Instance project_countable : Countable Project.
Proof.
  refine (inj_countable'
    (fun p => (PBXShellScriptBuildPhase p, PBXNativeTarget p, firstTargetUuid p,
               otherSections p))
    (fun '(a, b, c, d) =>
       {| PBXShellScriptBuildPhase := a; PBXNativeTarget := b;
          firstTargetUuid := c; otherSections := d |}) _).
  by intros [].
Defined.

(** Binary digits of a positive number, lowest first, as the characters 0
    and 1. *)
Fixpoint digits (p : positive) : jsstring :=
  match p with
  | xH => []
  | xO q => 48%N :: digits q
  | xI q => 49%N :: digits q
  end.

Fixpoint undigits (s : jsstring) : option positive :=
  match s with
  | [] => Some xH
  | c :: s' =>
      if (c =? 48)%N then xO <$> undigits s'
      else if (c =? 49)%N then xI <$> undigits s'
      else None
  end.

Definition reference_parse (contents : jsstring) : result Project :=
  match undigits contents with
  | Some n =>
      match decode n with
      | Some proj => Ok proj
      | None => Throw ParseError
      end
  | None => Throw ParseError
  end.

Definition reference_writeSync (proj : Project) : jsstring :=
  digits (encode proj).

Definition reference_library : Library :=
  {| parse := reference_parse; writeSync := reference_writeSync |}.

End Reference.

(* ===================================================================== *)
(** * Part II: theorems *)
(* ===================================================================== *)

(** ** Facts about the matcher *)
Module RegExpFacts.
Import Js RegExp.

Lemma search_unfold re prev s :
  search re prev s =
  match_here re prev s
  || match s with x :: s' => search re (Some x) s' | [] => false end.
Proof. by destruct s. Qed.

Lemma search_of_match re prev s :
  match_here re prev s = true -> search re prev s = true.
Proof. intros Hm. rewrite search_unfold, Hm. done. Qed.

Lemma search_later re prev x s :
  search re (Some x) s = true -> search re prev (x :: s) = true.
Proof. intros Hs. rewrite search_unfold, Hs. apply orb_true_r. Qed.

(** A match of a pattern is a match of each of its prefixes. *)
Lemma match_here_prefix r1 r2 prev s :
  match_here (r1 ++ r2) prev s = true -> match_here r1 prev s = true.
Proof.
  revert prev s. induction r1 as [|a r1 IH]; intros prev s; [done|].
  destruct a as [c|c| |]; simpl.
  - destruct s as [|x s]; [done|].
    intros [-> Hm]%andb_true_iff. rewrite (IH _ _ Hm). done.
  - destruct s as [|x s]; [done|].
    intros [-> Hm]%andb_true_iff. rewrite (IH _ _ Hm). done.
  - induction s as [|x s IHs]; [done|].
    intros [-> [Hrun|Hm]%orb_true_iff]%andb_true_iff; simpl.
    + rewrite (IHs Hrun). done.
    + rewrite (IH _ _ Hm). apply orb_true_r.
  - intros [-> Hm]%andb_true_iff. rewrite (IH _ _ Hm). done.
Qed.

(** If every match of [r1] leads to a match of [r2] somewhere from the same
    position on, a string [r1] is found in is a string [r2] is found in. *)
Lemma search_weaken r1 r2 :
  (forall prev s, match_here r1 prev s = true -> search r2 prev s = true) ->
  forall prev s, search r1 prev s = true -> search r2 prev s = true.
Proof.
  intros Hstep prev s. revert prev.
  induction s as [|x s IH]; intros prev; rewrite (search_unfold r1).
  - rewrite orb_false_r. apply Hstep.
  - intros [Hm|Hs]%orb_true_iff; [by apply Hstep|].
    apply search_later, IH, Hs.
Qed.

(** Dropping leading literal characters of a pattern moves the match to the
    right. *)
Lemma search_skip_lits p re prev s :
  match_here (lits p ++ re) prev s = true -> search re prev s = true.
Proof.
  revert prev s. induction p as [|c p IH]; intros prev s; simpl.
  - apply search_of_match.
  - destruct s as [|x s]; [done|].
    intros [_ Hm]%andb_true_iff. apply search_later, IH, Hm.
Qed.

(** Under flag [i] a literal still matches itself. *)
Lemma match_here_litsI p prev s :
  match_here (lits p) prev s = true -> match_here (litsI p) prev s = true.
Proof.
  revert prev s. induction p as [|c p IH]; intros prev s; simpl; [done|].
  destruct s as [|x s]; [done|].
  intros [->%N.eqb_eq Hm]%andb_true_iff.
  rewrite N.eqb_refl. by apply IH.
Qed.

Lemma test_weaken r1 r2 s :
  (forall prev s, match_here r1 prev s = true -> search r2 prev s = true) ->
  test r1 s = true -> test r2 s = true.
Proof. intros Hstep. apply search_weaken, Hstep. Qed.

End RegExpFacts.

(** ** The recognition patterns *)
Module Recognition.
Import Js RegExp RegExpFacts Xcode Cordova.

Lemma revert_pattern_split :
  revert_pattern = lits (js "@sentry/cli/bin/") ++ (apply_pattern ++ [WordBoundary]).
Proof. reflexivity. Qed.

Lemma apply_pattern_split :
  apply_pattern = lits (js "sentry-cli") ++ ([SpacePlus] ++ lits (js "upload-dsym")).
Proof. reflexivity. Qed.

Lemma revert_implies_apply body :
  test revert_pattern body = true -> test apply_pattern body = true.
Proof.
  apply test_weaken. intros prev s. rewrite revert_pattern_split.
  intros Hm%search_skip_lits. revert Hm. apply search_weaken.
  intros prev' s' Hm'%match_here_prefix. by apply search_of_match.
Qed.

Lemma apply_implies_precheck body :
  test apply_pattern body = true -> test precheck_pattern body = true.
Proof.
  apply test_weaken. intros prev s. rewrite apply_pattern_split.
  intros Hm%match_here_prefix. by apply search_of_match, match_here_litsI.
Qed.

(** The patterns on a few bodies: any white space separates the two words,
    the revert pattern wants the path of the bundled tool and a word boundary
    after the sub-command, the pre-check ignores case. *)
Example apply_pattern_on_samples :
  test apply_pattern (js "sentry-cli upload-dsym") = true
  /\ test apply_pattern (js "sentry-cli" ++ [9; 10; 160]%N ++ js "upload-dsym") = true
  /\ test apply_pattern (js "sentry-cliupload-dsym") = false
  /\ test apply_pattern (js "sentry-cli upload-sourcemaps") = false
  /\ test apply_pattern (js "Sentry-Cli upload-dsym") = false.
Proof. by vm_compute. Qed.

Example revert_pattern_on_samples :
  test revert_pattern (js "node_modules/@sentry/cli/bin/sentry-cli  upload-dsym") = true
  /\ test revert_pattern (js "@sentry/cli/bin/sentry-cli upload-dsym --force") = true
  /\ test revert_pattern (js "@sentry/cli/bin/sentry-cli upload-dsyms") = false
  /\ test revert_pattern (js "@sentry/cli/bin/sentry-cli upload-dsym_x") = false
  /\ test revert_pattern (js "sentry-cli upload-dsym") = false.
Proof. by vm_compute. Qed.

Example precheck_pattern_on_samples :
  test precheck_pattern (js "run SENTRY-CLI now") = true
  /\ test precheck_pattern (js "sentry-cli") = true
  /\ test precheck_pattern (js "sentry_cli") = false
  /\ test precheck_pattern [] = false.
Proof. by vm_compute. Qed.

(** C5, as stated, fails: the body [sentry-cli upload-dsym] is one Apply
    takes for already patched and Revert does not remove, so the two do not
    use one pattern. *)
Lemma patterns_not_shared :
  ~ (forall body : list N,
       test apply_pattern body = test revert_pattern body).
Proof. intros Heq. specialize (Heq (js "sentry-cli upload-dsym")). done. Qed.

(** C5, amended: the patterns of Revert, of Apply and of the orchestrator's
    pre-check are three literals, each narrower than the next: a body Revert
    removes is one Apply takes for already patched, a body Apply takes for
    already patched passes the pre-check, and the script Apply inserts matches
    all three. *)
Theorem recognition_patterns_nested :
  forall body : list N,
    (test revert_pattern body = true -> test apply_pattern body = true)
    /\ (test apply_pattern body = true -> test precheck_pattern body = true)
    /\ test revert_pattern upload_script = true
    /\ test apply_pattern upload_script = true
    /\ test precheck_pattern upload_script = true.
Proof.
  intros body. split; [apply revert_implies_apply|].
  split; [apply apply_implies_precheck|]. by vm_compute.
Qed.

End Recognition.

(** ** [checkPackageVersion] *)
Module PackageFacts.
Import Js Package.

Lemma truthy_string_true (s : list N) : truthy_string s = true <-> s <> [].
Proof. by destruct s. Qed.

Lemma truthy_string_false (s : list N) : truthy_string s = false <-> s = [].
Proof. by destruct s. Qed.

Lemma str_eqb_true (a b : list N) : str_eqb a b = true <-> a = b.
Proof. unfold str_eqb. by rewrite bool_decide_eq_true. Qed.

Lemma str_eqb_false (a b : list N) : str_eqb a b = false <-> a <> b.
Proof. unfold str_eqb. by rewrite bool_decide_eq_false. Qed.

(** The version string is empty exactly when the field is missing, has no
    entry for the package, or has the empty string there. *)
Lemma listed_version_empty appPackage field packageName :
  listed_version appPackage field packageName = []
  <-> (forall pkg deps v,
         appPackage = Some pkg -> field pkg = Some deps ->
         deps !! packageName = Some v -> v = []).
Proof.
  unfold listed_version. split.
  - intros Hl pkg deps v -> Hf Hv. rewrite Hf, Hv in Hl. done.
  - intros Hall. destruct appPackage as [pkg|]; [|done].
    destruct (field pkg) as [deps|] eqn:Hf; [|done].
    destruct (deps !! packageName) as [v|] eqn:Hv; [|done].
    simpl. by eapply Hall.
Qed.

Section WithSemver.
Context `{Semver}.

Lemma fulfillsVersionRange_iff version acceptableVersions canBeLatest :
  fulfillsVersionRange version acceptableVersions canBeLatest = true
  <-> Fulfills acceptableVersions canBeLatest version.
Proof.
  unfold fulfillsVersionRange.
  destruct (str_eqb version (js "latest")) eqn:Hlatest.
  { apply str_eqb_true in Hlatest as ->. split.
    - by constructor.
    - by inversion 1. }
  apply str_eqb_false in Hlatest.
  destruct (truthy (valid version)) eqn:Hvalid.
  { destruct (valid version) as [cleaned|] eqn:Hv; [|done]. simpl in *.
    rewrite Hvalid. simpl. split.
    - intros Hs. eapply fulfills_version; eauto. by apply truthy_string_true.
    - inversion 1 as [|? c ? Hv' ? ?|? c ? Hf]; subst; [done| |].
      + congruence.
      + rewrite Hv in Hf. simpl in Hf. congruence. }
  destruct (truthy (validRange version)) eqn:Hrange.
  { destruct (validRange version) as [cleaned|] eqn:Hr; [|done]. simpl in *.
    rewrite Hrange. simpl. split.
    - intros Hs. eapply fulfills_range; eauto. by apply truthy_string_true.
    - inversion 1 as [|? c ? Hv' Hne ?|? c ? ? Hr' ? ?]; subst; [done| |].
      + rewrite Hv' in Hvalid. simpl in Hvalid.
        apply truthy_string_true in Hne. congruence.
      + congruence. }
  split; [done|].
  inversion 1 as [|? c ? Hv' Hne ?|? c ? ? Hr' Hne ?]; subst; [done| |].
  - rewrite Hv' in Hvalid. simpl in Hvalid.
    apply truthy_string_true in Hne. congruence.
  - rewrite Hr' in Hrange. simpl in Hrange.
    apply truthy_string_true in Hne. congruence.
Qed.

(** C10: [checkPackageVersion] returns false when the package is listed in
    neither [dependencies] nor [devDependencies] (no entry, or the empty
    string); otherwise it returns true exactly when one of the two version
    strings fulfills the acceptable range, where [latest] fulfills it exactly
    when [canBeLatest] is true, a valid exact version when it satisfies the
    range, a valid range when it is a subset of the range, and any other
    string never. *)
Theorem checkPackageVersion_correct
    (appPackage : option PackageDotJson)
    (packageName acceptableVersions : list N) (canBeLatest : bool) :
  let depsVersion := listed_version appPackage dependencies packageName in
  let devDepsVersion := listed_version appPackage devDependencies packageName in
  let returned :=
    (checkPackageVersion appPackage packageName acceptableVersions canBeLatest).1 in
  let unlisted field :=
    forall pkg deps v,
      appPackage = Some pkg -> field pkg = Some deps ->
      deps !! packageName = Some v -> v = [] in
  (unlisted dependencies /\ unlisted devDependencies -> returned = false)
  /\ (~ (unlisted dependencies /\ unlisted devDependencies) ->
      (returned = true
       <-> Fulfills acceptableVersions canBeLatest depsVersion
           \/ Fulfills acceptableVersions canBeLatest devDepsVersion))
  /\ (Fulfills acceptableVersions canBeLatest (js "latest") <-> canBeLatest = true).
Proof.
  intros depsVersion devDepsVersion returned unlisted.
  assert (unlisted dependencies <-> depsVersion = []) as Hdeps
    by (symmetry; apply listed_version_empty).
  assert (unlisted devDependencies <-> devDepsVersion = []) as Hdev
    by (symmetry; apply listed_version_empty).
  rewrite Hdeps, Hdev. clear Hdeps Hdev unlisted.
  subst returned. unfold checkPackageVersion.
  fold depsVersion devDepsVersion.
  split; [|split].
  - intros [-> ->]. done.
  - intros Hlisted.
    destruct (negb (truthy_string depsVersion) && negb (truthy_string devDepsVersion))
      eqn:Hnone.
    { apply andb_true_iff in Hnone as [H1%negb_true_iff H2%negb_true_iff].
      apply truthy_string_false in H1, H2. tauto. }
    rewrite <- !fulfillsVersionRange_iff.
    destruct (fulfillsVersionRange depsVersion _ _),
             (fulfillsVersionRange devDepsVersion _ _); simpl; intuition congruence.
  - split; [|by constructor]. by inversion 1.
Qed.

End WithSemver.

Example checkPackageVersion_on_samples :
  let manifest deps :=
    Some {| dependencies := Some deps; devDependencies := None |} in
  (@checkPackageVersion toy_semver (manifest {[ js "pkg" := js "1.2.3" ]})
     (js "pkg") (js "^1.0.0") false).1 = true
  /\ (@checkPackageVersion toy_semver (manifest {[ js "pkg" := js "latest" ]})
        (js "pkg") (js "^1.0.0") false).1 = false
  /\ (@checkPackageVersion toy_semver (manifest {[ js "pkg" := js "latest" ]})
        (js "pkg") (js "^1.0.0") true).1 = true
  /\ (@checkPackageVersion toy_semver (manifest {[ js "pkg" := js "bogus" ]})
        (js "pkg") (js "^1.0.0") true).1 = false
  /\ (@checkPackageVersion toy_semver (manifest {[ js "other" := js "1.2.3" ]})
        (js "pkg") (js "^1.0.0") true).1 = false
  /\ (@checkPackageVersion toy_semver None (js "pkg") (js "^1.0.0") true).1 = false.
Proof. by vm_compute. Qed.

(** The check on a manifest that lists [@sentry/cli] at [1.2.3], against
    the range [^1.0.0]: listed, and a valid version that satisfies the
    range. *)
Lemma checkPackageVersion_correct_example :
  (@checkPackageVersion toy_semver
     (Some {| dependencies := Some {[ js "@sentry/cli" := js "1.2.3" ]};
              devDependencies := None |})
     (js "@sentry/cli") (js "^1.0.0") false).1 = true.
Proof.
  destruct (@checkPackageVersion_correct toy_semver
              (Some {| dependencies := Some {[ js "@sentry/cli" := js "1.2.3" ]};
                       devDependencies := None |})
              (js "@sentry/cli") (js "^1.0.0") false) as (_ & Hlisted & _).
  apply Hlisted.
  - intros [Hunlisted _].
    specialize (Hunlisted _ _ (js "1.2.3") eq_refl eq_refl eq_refl).
    discriminate Hunlisted.
  - left. by apply (@fulfills_version toy_semver _ _ (js "1.2.3") (js "1.2.3")).
Defined.

End PackageFacts.

(** ** Facts about objects used as maps *)
Module JsObjectFacts.
Import Js JsObject.

Section Facts.
Context {V : Type}.
Implicit Types (o : list (list N * V)) (k : list N) (v : V).

Lemma obj_get_app k o1 o2 :
  obj_get k (o1 ++ o2) =
  match obj_get k o1 with Some v => Some v | None => obj_get k o2 end.
Proof.
  induction o1 as [|[k' v'] o1 IH]; simpl; [done|].
  by case_decide.
Qed.

Lemma obj_get_None k o : obj_get k o = None <-> k ∉ obj_keys o.
Proof.
  induction o as [|[k' v'] o IH]; simpl.
  - split; [intros _; apply not_elem_of_nil | done].
  - rewrite not_elem_of_cons. case_decide; subst.
    + split; [done | by intros []].
    + rewrite IH. split; [intros ?; split; [congruence | done] | by intros [_ ?]].
Qed.

Lemma obj_get_Some_elem k v o : obj_get k o = Some v -> (k, v) ∈ o.
Proof.
  induction o as [|[k' v'] o IH]; simpl; [done|].
  case_decide; subst.
  - intros [= ->]. apply elem_of_cons. by left.
  - intros Hg. apply elem_of_cons. right. by apply IH.
Qed.

Lemma obj_get_is_key k v o : obj_get k o = Some v -> k ∈ obj_keys o.
Proof.
  intros Hg%obj_get_Some_elem. unfold obj_keys.
  apply list_elem_of_fmap. by exists (k, v).
Qed.

Lemma obj_set_absent k v o : obj_get k o = None -> obj_set k v o = o ++ [(k, v)].
Proof.
  induction o as [|[k' v'] o IH]; simpl; [done|].
  case_decide; [done|]. intros Hg. by rewrite IH.
Qed.

Lemma obj_get_set_eq k v o : obj_get k (obj_set k v o) = Some v.
Proof.
  induction o as [|[k' v'] o IH]; simpl.
  - by rewrite decide_True.
  - case_decide; simpl; [by rewrite decide_True | by rewrite decide_False].
Qed.

Lemma obj_get_set_ne k k' v o : k <> k' -> obj_get k' (obj_set k v o) = obj_get k' o.
Proof.
  intros Hne. induction o as [|[k0 v0] o IH]; simpl.
  - by rewrite decide_False.
  - case_decide; subst; simpl.
    + by rewrite !decide_False.
    + by rewrite IH.
Qed.

Lemma obj_set_same k v o : obj_get k o = Some v -> obj_set k v o = o.
Proof.
  induction o as [|[k' v'] o IH]; simpl; [done|].
  case_decide; subst.
  - by intros [= ->].
  - intros Hg. by rewrite IH.
Qed.

Lemma obj_set_set k v1 v2 o : obj_set k v2 (obj_set k v1 o) = obj_set k v2 o.
Proof.
  induction o as [|[k' v'] o IH]; simpl.
  - by rewrite decide_True.
  - case_decide; simpl; [by rewrite decide_True|].
    by rewrite decide_False, IH.
Qed.

(** Filtering on keys keeps the entry of every key that passes. *)
Lemma obj_get_filter (P : list N -> Prop) `{!forall k, Decision (P k)} k o :
  obj_get k (filter (fun kv => P kv.1) o) = if decide (P k) then obj_get k o else None.
Proof.
  induction o as [|[k' v'] o IH]; simpl.
  - by case_decide.
  - rewrite filter_cons. simpl. destruct (decide (P k')) as [Hk'|Hk']; simpl.
    + destruct (decide (k' = k)) as [->|]; [|done].
      by destruct (decide (P k)).
    + destruct (decide (k' = k)) as [->|]; [|done].
      rewrite IH. by destruct (decide (P k)).
Qed.

Lemma obj_get_delete_eq k o : obj_get k (obj_delete k o) = None.
Proof.
  pose proof (obj_get_filter (fun j => j <> k) k o) as Hf. simpl in Hf.
  unfold obj_delete. rewrite Hf. by case_decide.
Qed.

Lemma obj_get_delete_ne k k' o : k <> k' -> obj_get k' (obj_delete k o) = obj_get k' o.
Proof.
  intros Hne.
  pose proof (obj_get_filter (fun j => j <> k) k' o) as Hf. simpl in Hf.
  unfold obj_delete. rewrite Hf. case_decide; [done | congruence].
Qed.

End Facts.

End JsObjectFacts.

(** ** Apply: [addNewXcodeBuildPhaseForSymbols] *)
Module ApplyFacts.
Import Js JsObject JsObjectFacts RegExp Xcode Cordova Samples.

Lemma comment_key_ne (id : list N) : id <> comment_key id.
Proof.
  intros Heq. apply (f_equal length) in Heq.
  unfold comment_key in Heq. rewrite length_app in Heq. simpl in Heq. lia.
Qed.


Lemma collect_buildScripts_eq proj :
  collect_buildScripts proj =
  flat_map (scripts_of (shell_script_section proj))
           (obj_keys (shell_script_section proj)).
Proof. reflexivity. Qed.

(** [buildScripts] holds exactly the objects of the section with an [isa]. *)
Lemma elem_of_collect proj script :
  script ∈ collect_buildScripts proj
  <-> exists key, obj_get key (shell_script_section proj) = Some (PhaseObject script)
                  /\ isa script <> [].
Proof.
  rewrite collect_buildScripts_eq, list_elem_of_In, in_flat_map. split.
  - intros (key & _ & Hin). exists key. unfold scripts_of in Hin.
    destruct (obj_get key _) as [[t|val]|]; simpl in Hin; try done.
    destruct (truthy_string (isa val)) eqn:Hisa; simpl in Hin; [|done].
    destruct Hin as [->|[]]. split; [done|]. by destruct (isa script).
  - intros (key & Hget & Hisa). exists key. split.
    + apply list_elem_of_In. by eapply obj_get_is_key.
    + unfold scripts_of. rewrite Hget.
      destruct (isa script); [done|]. simpl. by left.
Qed.

Lemma already_patched_iff proj :
  existsb (fun script => test apply_pattern (shellScript script))
          (collect_buildScripts proj) = true
  <-> exists key script,
        obj_get key (shell_script_section proj) = Some (PhaseObject script)
        /\ isa script <> []
        /\ test apply_pattern (shellScript script) = true.
Proof.
  rewrite existsb_exists. split.
  - intros (script & Hin & Ht). apply list_elem_of_In, elem_of_collect in Hin.
    destruct Hin as (key & Hget & Hisa). by exists key, script.
  - intros (key & script & Hget & Hisa & Ht). exists script. split; [|done].
    apply list_elem_of_In, elem_of_collect. by exists key.
Qed.

(** The section after [addBuildPhase] under a new id. *)
Lemma addBuildPhase_section uuid kind label target path script proj :
  obj_get uuid (shell_script_section proj) = None ->
  obj_get (comment_key uuid) (shell_script_section proj) = None ->
  shell_script_section (addBuildPhase uuid kind label target path script proj) =
  shell_script_section proj
  ++ [(uuid, PhaseObject {| isa := kind; name := label; shellPath := path;
                            shellScript := script; otherFields := [] |});
      (comment_key uuid, PhaseComment label)].
Proof.
  intros Hfresh Hfresh_comment. unfold addBuildPhase, shell_script_section at 1.
  simpl. fold (shell_script_section proj).
  rewrite (obj_set_absent uuid) by done.
  rewrite obj_set_absent.
  - by rewrite <- app_assoc.
  - rewrite obj_get_app, Hfresh_comment. simpl.
    rewrite decide_False; [done | apply comment_key_ne].
Qed.


Example apply_on_fresh_project :
  addNewXcodeBuildPhaseForSymbols new_uuid
    (collect_buildScripts fresh_project) fresh_project
  = {| PBXShellScriptBuildPhase :=
         Some [(new_uuid, PhaseObject upload_phase);
               (new_uuid ++ js "_comment", PhaseComment upload_label)];
       PBXNativeTarget :=
         [(js "T1", app_target [ref (js "SRC") (js "Sources");
                                ref (js "FRM") (js "Frameworks");
                                ref new_uuid upload_label]);
          (js "T1_comment", TargetComment (js "HelloCordova"))];
       firstTargetUuid := js "T1";
       otherSections := other_sections |}.
Proof. reflexivity. Qed.



End ApplyFacts.

(** ** Revert: [unpatchXcodeBuildScripts] *)
Module RevertFacts.
Import Js JsObject JsObjectFacts RegExp Xcode Cordova Samples.

Lemma filter_all {A : Type} (P : A -> Prop) `{!forall x, Decision (P x)} (l : list A) :
  (forall x, x ∈ l -> P x) -> filter P l = l.
Proof.
  induction l as [|x l IH]; [done|]. intros Hall.
  rewrite filter_cons_True by (apply Hall, list_elem_of_here).
  rewrite IH; [done|]. intros y Hy. by apply Hall, list_elem_of_further.
Qed.

(** *** The splice *)

Lemma splice_value_sublist key phases : splice_value key phases `sublist_of` phases.
Proof.
  induction phases as [|ref rest IH]; simpl; [done|].
  case_decide; [by apply sublist_cons | by apply sublist_skip].
Qed.

Lemma spliced_sublist keys phases : spliced keys phases `sublist_of` phases.
Proof.
  unfold spliced. revert phases.
  induction keys as [|key keys IH]; intros phases; simpl; [done|].
  etrans; [apply IH | apply splice_value_sublist].
Qed.

Lemma NoDup_values_filter (P : PhaseRef -> Prop) `{!forall r, Decision (P r)} phases :
  NoDup (map value phases) -> NoDup (map value (filter P phases)).
Proof.
  intros Hnd. eapply sublist_NoDup; [exact Hnd|].
  apply (fmap_sublist value), sublist_filter.
Qed.

(** Where no id occurs twice the splice removes every reference to the key. *)
Lemma splice_value_filter key phases :
  NoDup (map value phases) ->
  splice_value key phases = filter (fun r => value r <> key) phases.
Proof.
  induction phases as [|ref rest IH]; simpl; [done|].
  intros [Hnotin Hnd]%list.NoDup_cons. case_decide as Hv.
  - rewrite filter_cons_False by (intros Hne; by apply Hne).
    symmetry. apply filter_all. intros r Hr Heq.
    apply Hnotin. rewrite Hv, <- Heq.
    apply list_elem_of_In, in_map, list_elem_of_In, Hr.
  - rewrite filter_cons_True by done. by rewrite IH.
Qed.

Lemma spliced_snoc keys key phases :
  spliced (keys ++ [key]) phases = splice_value key (spliced keys phases).
Proof. unfold spliced. by rewrite fold_left_app. Qed.

Lemma spliced_filter keys phases :
  NoDup (map value phases) ->
  spliced keys phases = filter (fun r => value r ∉ keys) phases.
Proof.
  intros Hnd. induction keys as [|key keys IH] using rev_ind.
  - symmetry. apply filter_all. intros r _. apply not_elem_of_nil.
  - rewrite spliced_snoc, IH, splice_value_filter by by apply NoDup_values_filter.
    rewrite list_filter_filter. apply list_filter_iff. intros r.
    rewrite not_elem_of_app, list_elem_of_singleton. tauto.
Qed.

(** *** The loop *)

Lemma is_match_true section key :
  is_match section key = true
  <-> exists script, obj_get key section = Some (PhaseObject script)
                     /\ test revert_pattern (shellScript script) = true.
Proof.
  unfold is_match. destruct (obj_get key section) as [[t|script]|]; split;
    try done; try (by intros (? & ? & ?)).
  - intros Ht. by exists script.
  - by intros (? & [= <-] & ?).
Qed.

Lemma removed_by_snoc section visited key j :
  removed_by section (visited ++ [key]) j =
  removed_by section visited j
  || is_match section key && (bool_decide (j = key) || bool_decide (j = comment_key key)).
Proof. unfold removed_by. rewrite existsb_app. simpl. by rewrite orb_false_r. Qed.

Lemma removed_by_true section visited j :
  removed_by section visited j = true
  <-> exists key, key ∈ visited /\ is_match section key = true
                  /\ (j = key \/ j = comment_key key).
Proof.
  unfold removed_by. rewrite existsb_exists. split.
  - intros (key & Hin%list_elem_of_In & [Hm Hj]%andb_true_iff).
    exists key. split; [done|]. split; [done|].
    apply orb_true_iff in Hj as [Hj|Hj]; apply bool_decide_eq_true in Hj; tauto.
  - intros (key & Hin & Hm & Hj). exists key. split; [by apply list_elem_of_In|].
    rewrite Hm. simpl. apply orb_true_iff.
    destruct Hj as [Hj|Hj]; [left|right]; by apply bool_decide_eq_true.
Qed.

Lemma well_paired_spec section owner script :
  well_paired section = true ->
  obj_get owner section = Some (PhaseObject script) ->
  forall script', obj_get (comment_key owner) section <> Some (PhaseObject script').
Proof.
  unfold well_paired. rewrite forallb_forall. intros Hwp Hget script' Hc.
  specialize (Hwp owner). rewrite Hget, Hc in Hwp.
  assert (false = true) by (apply Hwp, list_elem_of_In; by eapply obj_get_is_key).
  done.
Qed.

(** What is done to the target section at a matching key. *)
Lemma splice_first_target_set firstTarget key keys entry nativeTargets :
  splice_first_target firstTarget key
    (obj_set firstTarget (spliced_entry keys entry) nativeTargets) =
  Ok (obj_set firstTarget (spliced_entry (keys ++ [key]) entry) nativeTargets).
Proof.
  unfold splice_first_target. rewrite obj_get_set_eq.
  destruct entry as [text|t]; simpl; [done|].
  destruct (buildPhases t) as [phases|] eqn:Hphases; simpl.
  - by rewrite obj_set_set, spliced_snoc.
  - by rewrite Hphases.
Qed.

Section Loop.
Context (section : list (list N * phase_entry)) (firstTarget : list N).
Context (nativeTargets : list (list N * target_entry)) (entry : target_entry).
Context (Hkeys : NoDup (obj_keys section)).
Context (Hpaired : well_paired section = true).

Local Abbreviation kept visited :=
  (filter (fun kv : list N * phase_entry => removed_by section visited kv.1 = false)
          section).
Local Abbreviation targets_after visited :=
  (obj_set firstTarget
     (spliced_entry (filter (fun key => is_match section key = true) visited) entry)
     nativeTargets).

(** One round, at a key that follows [visited] in the key order. *)
Lemma unpatch_key_round visited key later :
  obj_keys section = visited ++ key :: later ->
  unpatch_key firstTarget (kept visited, targets_after visited) key =
  Ok (kept (visited ++ [key]), targets_after (visited ++ [key])).
Proof using Hkeys Hpaired.
  intros Hsplit. unfold unpatch_key.
  pose proof (obj_get_filter (fun j => removed_by section visited j = false) key section)
    as Hget. simpl in Hget. rewrite Hget. clear Hget.
  destruct (is_match section key) eqn:Hmatch.
  - (* the key is still there, and it matches *)
    apply is_match_true in Hmatch as Hscript. destruct Hscript as (script & Hget & Ht).
    assert (removed_by section visited key = false) as Hfresh.
    { apply not_true_is_false. intros (k & Hin & Hm & [-> | ->])%removed_by_true.
      - rewrite Hsplit in Hkeys. apply list.NoDup_app in Hkeys as (_ & Hdisj & _).
        apply (Hdisj k Hin), list_elem_of_here.
      - apply is_match_true in Hm as (owner_script & Howner & _).
        by eapply well_paired_spec. }
    rewrite decide_True by done. rewrite Hget, Ht. simpl.
    rewrite splice_first_target_set. simpl. f_equal. f_equal.
    + unfold obj_delete. rewrite !list_filter_filter. apply list_filter_iff.
      intros [j v]. simpl. rewrite removed_by_snoc, Hmatch. simpl.
      rewrite orb_false_iff, orb_false_iff, !bool_decide_eq_false. tauto.
    + by rewrite list.filter_app, filter_cons_True, filter_nil by done.
  - (* nothing to do at this key *)
    assert (forall j, removed_by section (visited ++ [key]) j = removed_by section visited j)
      as Hsame.
    { intros j. rewrite removed_by_snoc, Hmatch. simpl. apply orb_false_r. }
    assert (kept (visited ++ [key]) = kept visited) as ->.
    { apply list_filter_iff. intros [j v]. simpl. by rewrite Hsame. }
    rewrite list.filter_app, filter_cons_False, filter_nil, app_nil_r by congruence.
    case_decide; [|done].
    unfold is_match in Hmatch.
    destruct (obj_get key section) as [[t|script]|]; [done| |done].
    by rewrite Hmatch.
Qed.

Lemma unpatch_keys_rounds later : forall visited,
  obj_keys section = visited ++ later ->
  unpatch_keys firstTarget later (kept visited, targets_after visited) =
  Ok (kept (visited ++ later), targets_after (visited ++ later)).
Proof using Hkeys Hpaired.
  induction later as [|key later IH]; intros visited Hsplit; cbn [unpatch_keys].
  - by rewrite app_nil_r.
  - rewrite (unpatch_key_round visited key later Hsplit). cbn [bind].
    rewrite (IH (visited ++ [key])) by by rewrite <- app_assoc.
    by rewrite <- app_assoc.
Qed.

End Loop.

Lemma spliced_entry_nil entry : spliced_entry [] entry = entry.
Proof.
  destruct entry as [text|t]; simpl; [done|].
  by destruct t as [[phases|] fields].
Qed.

Lemma elem_of_matching_keys section key :
  key ∈ matching_keys section <-> is_match section key = true /\ key ∈ obj_keys section.
Proof. unfold matching_keys. by rewrite list_elem_of_filter. Qed.

(** The whole loop, on a section with one entry per key that keeps the
    pairing invariant, when the first target has an entry. *)
Lemma unpatchXcodeBuildScripts_spec proj entry :
  let section := shell_script_section proj in
  NoDup (obj_keys section) ->
  well_paired section = true ->
  obj_get (firstTargetUuid proj) (PBXNativeTarget proj) = Some entry ->
  unpatchXcodeBuildScripts proj =
  Ok {| PBXShellScriptBuildPhase :=
          match PBXShellScriptBuildPhase proj with
          | Some _ =>
              Some (filter (fun kv => removed_by section (obj_keys section) kv.1 = false)
                           section)
          | None => None
          end;
        PBXNativeTarget :=
          obj_set (firstTargetUuid proj)
                  (spliced_entry (matching_keys section) entry) (PBXNativeTarget proj);
        firstTargetUuid := firstTargetUuid proj;
        otherSections := otherSections proj |}.
Proof.
  intros section Hkeys Hpaired Hfirst.
  pose proof (unpatch_keys_rounds section (firstTargetUuid proj) (PBXNativeTarget proj)
                entry Hkeys Hpaired (obj_keys section) [] eq_refl) as Hloop.
  rewrite filter_nil, spliced_entry_nil, (obj_set_same _ _ _ Hfirst) in Hloop.
  rewrite (filter_all (fun kv => removed_by section [] kv.1 = false)) in Hloop by done.
  unfold unpatchXcodeBuildScripts. fold section. rewrite Hloop. done.
Qed.

Lemma section_after_filter proj (P : list N * phase_entry -> Prop)
    `{!forall kv, Decision (P kv)} targets first others :
  shell_script_section
    {| PBXShellScriptBuildPhase :=
         match PBXShellScriptBuildPhase proj with
         | Some _ => Some (filter P (shell_script_section proj))
         | None => None
         end;
       PBXNativeTarget := targets; firstTargetUuid := first; otherSections := others |}
  = filter P (shell_script_section proj).
Proof.
  unfold shell_script_section. simpl.
  by destruct (PBXShellScriptBuildPhase proj).
Qed.

Lemma unpatch_keys_no_match firstTarget keys scripts nativeTargets :
  (forall key, key ∈ keys -> is_match scripts key = false) ->
  unpatch_keys firstTarget keys (scripts, nativeTargets) = Ok (scripts, nativeTargets).
Proof.
  induction keys as [|key keys IH]; intros Hnone; cbn [unpatch_keys]; [done|].
  assert (unpatch_key firstTarget (scripts, nativeTargets) key = Ok (scripts, nativeTargets))
    as ->.
  { pose proof (Hnone key (list_elem_of_here _ _)) as Hkey.
    unfold unpatch_key, is_match in *.
    destruct (obj_get key scripts) as [[t|script]|]; [done| |done].
    by rewrite Hkey. }
  cbn [bind]. apply IH. intros k Hk. by apply Hnone, list_elem_of_further.
Qed.

(** With no matching script Revert returns the descriptor as it is. *)
Lemma unpatch_no_match proj :
  matching_keys (shell_script_section proj) = [] ->
  unpatchXcodeBuildScripts proj = Ok proj.
Proof.
  intros Hnone. unfold unpatchXcodeBuildScripts.
  rewrite unpatch_keys_no_match.
  - destruct proj as [[section|] targets first others]; done.
  - intros key Hkey. apply not_true_is_false. intros Hm.
    by apply (filter_nil_not_elem_of _ _ key Hnone Hm).
Qed.

Example revert_on_mixed_project :
  unpatchXcodeBuildScripts mixed_project
  = Ok {| PBXShellScriptBuildPhase :=
            Some [(js "ECH", PhaseObject echo_phase);
                  (js "ECH_comment", PhaseComment (js "Echo"))];
          PBXNativeTarget :=
            [(js "T1", app_target [ref (js "SRC") (js "Sources");
                                   ref (js "ECH") (js "Echo");
                                   ref (js "FRM") (js "Frameworks")]);
             (js "T1_comment", TargetComment (js "HelloCordova"))];
          firstTargetUuid := js "T1";
          otherSections := other_sections |}.
Proof. reflexivity. Qed.

Example revert_on_two_target_project :
  unpatchXcodeBuildScripts two_target_project
  = Ok {| PBXShellScriptBuildPhase := Some [];
          PBXNativeTarget :=
            [(js "T1", app_target [ref (js "SRC") (js "Sources")]);
             (js "T1_comment", TargetComment (js "HelloCordova"));
             (js "T2", app_target [ref (js "FRM") (js "Frameworks");
                                   ref (js "UPL") upload_label]);
             (js "T2_comment", TargetComment (js "Extension"))];
          firstTargetUuid := js "T1";
          otherSections := other_sections |}.
Proof. reflexivity. Qed.

(** C2, as stated, fails: Revert splices the id out of the first target's
    [buildPhases] only.  In [two_target_project] the matching phase is run by
    the second target, and its reference is still there after Revert. *)
Lemma revert_keeps_reference_in_owning_target :
  ~ (forall proj proj' key script owner target phases,
       unpatchXcodeBuildScripts proj = Ok proj' ->
       obj_get key (shell_script_section proj) = Some (PhaseObject script) ->
       test revert_pattern (shellScript script) = true ->
       obj_get owner (PBXNativeTarget proj) = Some (TargetObject target) ->
       buildPhases target = Some phases ->
       key ∈ map value phases ->
       exists target' phases',
         obj_get owner (PBXNativeTarget proj') = Some (TargetObject target')
         /\ buildPhases target' = Some phases'
         /\ key ∉ map value phases').
Proof.
  intros Hclaim.
  destruct (Hclaim two_target_project _ (js "UPL") upload_phase (js "T2") _ _
              eq_refl eq_refl eq_refl eq_refl eq_refl)
    as (target' & phases' & Htarget & Hphases & Hgone).
  - apply list_elem_of_further, list_elem_of_here.
  - vm_compute in Htarget. injection Htarget as <-.
    vm_compute in Hphases. injection Hphases as <-.
    apply Hgone, list_elem_of_further, list_elem_of_here.
Qed.

(** C2, amended: on a section with one entry per key that keeps the pairing
    invariant, and with the first target present, Revert returns without
    error; every object whose script matches the revert pattern is deleted
    together with its [id + "_comment"] record; the ids of those objects are
    spliced out of the [buildPhases] of the first target, the target Apply
    appends to, and the entries left keep their order; every other target is
    as before.  With no match Revert returns the descriptor unchanged, whatever
    the descriptor. *)
Theorem revert_removes_matching (proj : Project) :
  let section := shell_script_section proj in
  let removed := matching_keys section in
  (forall entry,
     NoDup (obj_keys section) ->
     well_paired section = true ->
     obj_get (firstTargetUuid proj) (PBXNativeTarget proj) = Some entry ->
     exists proj',
       unpatchXcodeBuildScripts proj = Ok proj'
       /\ (forall key script,
             obj_get key section = Some (PhaseObject script) ->
             test revert_pattern (shellScript script) = true ->
             obj_get key (shell_script_section proj') = None
             /\ obj_get (comment_key key) (shell_script_section proj') = None)
       /\ obj_get (firstTargetUuid proj) (PBXNativeTarget proj') =
          Some (spliced_entry removed entry)
       /\ (forall phases,
             spliced removed phases `sublist_of` phases
             /\ (NoDup (map value phases) ->
                 spliced removed phases = filter (fun r => value r ∉ removed) phases))
       /\ (forall other, other <> firstTargetUuid proj ->
             obj_get other (PBXNativeTarget proj') = obj_get other (PBXNativeTarget proj)))
  /\ (removed = [] -> unpatchXcodeBuildScripts proj = Ok proj).
Proof.
  intros section removed. split; [|apply unpatch_no_match].
  intros entry Hkeys Hpaired Hfirst.
  eexists. split; [by apply unpatchXcodeBuildScripts_spec|].
  split; [|split; [|split]].
  - intros key script Hget Ht.
    assert (is_match section key = true) as Hm by (apply is_match_true; eauto).
    assert (key ∈ obj_keys section) as Hkey by by eapply obj_get_is_key.
    rewrite section_after_filter. fold section.
    pose proof (obj_get_filter (V := phase_entry)
                  (fun j => removed_by section (obj_keys section) j = false)) as Hf.
    simpl in Hf. rewrite !Hf.
    assert (forall j, j = key \/ j = comment_key key ->
              removed_by section (obj_keys section) j = true) as Hremoved.
    { intros j Hj. apply removed_by_true. by exists key. }
    rewrite !decide_False; [done| |].
    + rewrite Hremoved by by right. done.
    + rewrite Hremoved by by left. done.
  - simpl. apply obj_get_set_eq.
  - intros phases. split; [apply spliced_sublist | apply spliced_filter].
  - intros other Hother. simpl. by apply obj_get_set_ne.
Qed.

(** Revert on [mixed_project]: the upload phase and its comment go, its id
    leaves the first target's list, the unrelated script stays. *)
Lemma revert_removes_matching_example :
  exists proj',
    unpatchXcodeBuildScripts mixed_project = Ok proj'
    /\ obj_get (js "UPL") (shell_script_section proj') = None
    /\ obj_get (js "UPL_comment") (shell_script_section proj') = None
    /\ obj_get (js "T1") (PBXNativeTarget proj') =
       Some (app_target [ref (js "SRC") (js "Sources");
                         ref (js "ECH") (js "Echo");
                         ref (js "FRM") (js "Frameworks")]).
Proof.
  destruct (revert_removes_matching mixed_project) as [Hrevert _].
  destruct (Hrevert (app_target [ref (js "SRC") (js "Sources");
                                 ref (js "UPL") upload_label;
                                 ref (js "ECH") (js "Echo");
                                 ref (js "FRM") (js "Frameworks")]))
    as (proj' & Hok & Hgone & Hfirst & _).
  - apply (bool_decide_unpack _). by vm_compute.
  - by vm_compute.
  - reflexivity.
  - exists proj'. split; [exact Hok|].
    destruct (Hgone (js "UPL") upload_phase eq_refl eq_refl) as [Hkey Hcomment].
    split; [exact Hkey|]. split; [exact Hcomment|]. exact Hfirst.
Defined.

End RevertFacts.

(** ** The patch engine: [patchXcodeProj] and [unpatchXcodeProj] *)
Module EngineFacts.
Import Js JsObject JsObjectFacts RegExp Xcode Cordova Samples Reference.
Import ApplyFacts RevertFacts.

(** *** Frame *)

(** C8: Apply and Revert leave every record outside the
    [PBXShellScriptBuildPhase] section as it is, and within the section every
    record they do not remove.  Apply, with the new id not yet in use, keeps
    every record of the section.  Revert, on a section with one entry per key
    that keeps the pairing invariant and with the first target present,
    returns a descriptor in which every object whose script does not match
    the revert pattern is unchanged, as is every record whose key is neither
    a matching id nor the comment key of one. *)
Theorem patch_frame (proj : Project) (uuid : list N) :
  let section := shell_script_section proj in
  (obj_get uuid section = None ->
   obj_get (comment_key uuid) section = None ->
   let proj' := addNewXcodeBuildPhaseForSymbols uuid (collect_buildScripts proj) proj in
   otherSections proj' = otherSections proj
   /\ (forall key entry,
         obj_get key section = Some entry ->
         obj_get key (shell_script_section proj') = Some entry))
  /\ (forall first_entry,
        NoDup (obj_keys section) ->
        well_paired section = true ->
        obj_get (firstTargetUuid proj) (PBXNativeTarget proj) = Some first_entry ->
        exists proj',
          unpatchXcodeBuildScripts proj = Ok proj'
          /\ otherSections proj' = otherSections proj
          /\ (forall key script,
                obj_get key section = Some (PhaseObject script) ->
                test revert_pattern (shellScript script) = false ->
                obj_get key (shell_script_section proj') = Some (PhaseObject script))
          /\ (forall key,
                removed_by section (obj_keys section) key = false ->
                obj_get key (shell_script_section proj') = obj_get key section)).
Proof.
  intros section. split.
  - intros Hfresh Hfresh_comment proj'. subst proj'.
    unfold addNewXcodeBuildPhaseForSymbols.
    destruct (existsb _ _); [done|]. split; [done|].
    intros key entry Hget. rewrite addBuildPhase_section by done.
    fold section. by rewrite obj_get_app, Hget.
  - intros first_entry Hkeys Hpaired Hfirst.
    eexists. split; [by apply unpatchXcodeBuildScripts_spec|].
    split; [done|].
    assert (forall key,
              removed_by section (obj_keys section) key = false ->
              obj_get key
                (filter (fun kv => removed_by section (obj_keys section) kv.1 = false)
                        section)
              = obj_get key section) as Hkept.
    { intros key Hkey.
      pose proof (obj_get_filter (V := phase_entry)
                    (fun j => removed_by section (obj_keys section) j = false)
                    key section) as Hf.
      simpl in Hf. rewrite Hf. by rewrite decide_True. }
    split.
    + intros key script Hget Ht. rewrite section_after_filter. fold section.
      rewrite Hkept; [done|].
      apply not_true_is_false.
      intros (k & _ & Hm & [-> | ->])%removed_by_true.
      * unfold is_match in Hm. rewrite Hget in Hm. congruence.
      * apply is_match_true in Hm as (owner & Howner & _).
        by eapply well_paired_spec.
    + intros key Hkey. rewrite section_after_filter. by apply Hkept.
Qed.

(** Apply on [mixed_project] with a new id, and Revert on it: the unrelated
    script [ECH] is the same record after each. *)
Lemma patch_frame_example :
  (otherSections
     (addNewXcodeBuildPhaseForSymbols new_uuid
        (collect_buildScripts mixed_project) mixed_project) = other_sections
   /\ obj_get (js "ECH")
        (shell_script_section
           (addNewXcodeBuildPhaseForSymbols new_uuid
              (collect_buildScripts mixed_project) mixed_project)) =
      Some (PhaseObject echo_phase))
  /\ (exists proj',
        unpatchXcodeBuildScripts mixed_project = Ok proj'
        /\ otherSections proj' = other_sections
        /\ obj_get (js "ECH") (shell_script_section proj') = Some (PhaseObject echo_phase)
        /\ obj_get (js "ECH_comment") (shell_script_section proj') =
           Some (PhaseComment (js "Echo"))).
Proof.
  destruct (patch_frame mixed_project new_uuid) as [Happly Hrevert]. split.
  - destruct (Happly eq_refl eq_refl) as [Hothers Hkept].
    split; [exact Hothers|]. by apply Hkept.
  - destruct (Hrevert (app_target [ref (js "SRC") (js "Sources");
                                   ref (js "UPL") upload_label;
                                   ref (js "ECH") (js "Echo");
                                   ref (js "FRM") (js "Frameworks")]))
      as (proj' & Hok & Hothers & Hobjects & Hkept).
    + apply (bool_decide_unpack _). by vm_compute.
    + by vm_compute.
    + reflexivity.
    + exists proj'. split; [exact Hok|]. split; [exact Hothers|].
      split; [by apply Hobjects|].
      by rewrite (Hkept (js "ECH_comment")).
Defined.

(** *** The reference serializer *)

Lemma undigits_digits n : undigits (digits n) = Some n.
Proof. induction n as [n IH|n IH|]; simpl; by rewrite ?IH. Qed.

Lemma reference_round_trip proj :
  reference_parse (reference_writeSync proj) = Ok proj.
Proof.
  unfold reference_parse, reference_writeSync.
  by rewrite undigits_digits, decode_encode.
Qed.

(** *** What the handlers resolve with *)

(** After Apply the descriptor has a ShellScript phase that Apply
    recognizes. *)
Lemma applied_is_patched uuid proj :
  existsb (fun script => test apply_pattern (shellScript script))
    (collect_buildScripts
       (addNewXcodeBuildPhaseForSymbols uuid (collect_buildScripts proj) proj))
  = true.
Proof.
  unfold addNewXcodeBuildPhaseForSymbols.
  destruct (existsb _ (collect_buildScripts proj)) eqn:Hpatched; [done|].
  apply already_patched_iff. exists uuid, upload_phase.
  split; [|by vm_compute].
  unfold addBuildPhase, shell_script_section. simpl.
  rewrite obj_get_set_ne by (intros Heq; by apply (comment_key_ne uuid)).
  apply obj_get_set_eq.
Qed.

Lemma apply_again_unchanged uuid uuid' proj :
  addNewXcodeBuildPhaseForSymbols uuid'
    (collect_buildScripts
       (addNewXcodeBuildPhaseForSymbols uuid (collect_buildScripts proj) proj))
    (addNewXcodeBuildPhaseForSymbols uuid (collect_buildScripts proj) proj)
  = addNewXcodeBuildPhaseForSymbols uuid (collect_buildScripts proj) proj.
Proof.
  unfold addNewXcodeBuildPhaseForSymbols at 1.
  by rewrite applied_is_patched.
Qed.

Lemma unpatchXcodeProj_parsed `{Library} contents proj proj' :
  parse contents = Ok proj ->
  unpatchXcodeBuildScripts proj = Ok proj' ->
  unpatchXcodeProj contents = Resolved (Some (writeSync proj')).
Proof. unfold unpatchXcodeProj. by intros -> ->. Qed.

(** The reference serializer, through the interface. *)
Lemma reference_law proj :
  @parse reference_library (@writeSync reference_library proj) = Ok proj.
Proof. exact (reference_round_trip proj). Qed.




(** *** Apply twice *)

Section RoundTrip.
Context `{Library}.
Context (parse_writeSync : forall proj, parse (writeSync proj) = Ok proj).

(** C1: when the bytes the library writes parse back to the descriptor
    written, applying Apply to the file Apply has left changes nothing: the
    second run parses a descriptor that already has a ShellScript phase
    matching the recognition pattern, [addNewXcodeBuildPhaseForSymbols] adds
    nothing, the bytes written are the bytes read, and [patchXcodeProj]
    resolves as a no-op.  A file that does not parse is left as it is by both
    runs. *)
Theorem apply_idempotent (contents uuid1 uuid2 : list N) :
  let once := file_after contents (patchXcodeProj uuid1 contents) in
  file_after once (patchXcodeProj uuid2 once) = once
  /\ (forall proj,
        parse contents = Ok proj ->
        let patched :=
          addNewXcodeBuildPhaseForSymbols uuid1 (collect_buildScripts proj) proj in
        parse once = Ok patched
        /\ existsb (fun script => test apply_pattern (shellScript script))
                   (collect_buildScripts patched) = true
        /\ addNewXcodeBuildPhaseForSymbols uuid2 (collect_buildScripts patched) patched
           = patched
        /\ writeSync patched = once
        /\ patchXcodeProj uuid2 once = Resolved None).
Proof using parse_writeSync.
  intros once.
  destruct (parse contents) as [proj|err] eqn:Hparse.
  - set (patched :=
           addNewXcodeBuildPhaseForSymbols uuid1 (collect_buildScripts proj) proj).
    assert (once = writeSync patched) as Honce.
    { unfold once, patchXcodeProj. rewrite Hparse. fold patched.
      destruct (str_eqb (writeSync patched) contents) eqn:Heq; [|done].
      simpl. symmetry. by apply bool_decide_eq_true in Heq. }
    assert (parse once = Ok patched) as Hparse_once by by rewrite Honce.
    assert (patchXcodeProj uuid2 once = Resolved None) as Hnoop.
    { unfold patchXcodeProj. rewrite Hparse_once.
      unfold patched. rewrite apply_again_unchanged. fold patched.
      unfold str_eqb. by rewrite bool_decide_true. }
    split; [by rewrite Hnoop|].
    intros proj' [= <-]. fold patched.
    split; [done|]. split; [apply applied_is_patched|].
    split; [apply apply_again_unchanged|]. by split.
  - assert (once = contents) as Honce.
    { unfold once, patchXcodeProj. by rewrite Hparse. }
    split; [|done].
    rewrite Honce. unfold patchXcodeProj. by rewrite Hparse.
Qed.

End RoundTrip.

(** Apply, twice, on the bytes of [fresh_project] under the reference
    serializer. *)
Lemma apply_idempotent_example :
  let contents := @writeSync reference_library fresh_project in
  let once := file_after contents (@patchXcodeProj reference_library new_uuid contents) in
  file_after once (@patchXcodeProj reference_library next_uuid once) = once
  /\ @patchXcodeProj reference_library next_uuid once = Resolved None.
Proof.
  intros contents once.
  destruct (@apply_idempotent reference_library reference_law
              contents new_uuid next_uuid) as [Hsame Hparsed].
  split; [exact Hsame|].
  by apply (Hparsed fresh_project (reference_law fresh_project)).
Defined.

End EngineFacts.

(** ** The platform orchestrator *)
Module OrchestratorFacts.
Import Js RegExp Xcode Cordova Orchestrator.

(** *** [shouldConfigurePlatform] *)

(** C6: in Apply mode [shouldConfigurePlatform] returns true exactly when
    the marker file [platforms/<platform>/sentry.properties] is absent or no
    located descriptor file has content matching the pre-check pattern; in
    uninstall mode it returns the negation of that value.  In terms of the
    two helpers, the Apply value is [!exists(marker) || !matchesContent(...)]. *)
Theorem shouldConfigurePlatform_rule `{FileSystem} (platform : list N) :
  let marker := path_join [js "platforms"; platform; js "sentry.properties"] in
  let descriptors := located_contents (js "**/*.xcodeproj/project.pbxproj") in
  ((shouldConfigurePlatform false platform).1 = true
   <-> exists_ marker = false
       \/ (forall content, content ∈ descriptors -> test precheck_pattern content = false))
  /\ (shouldConfigurePlatform true platform).1
     = negb (shouldConfigurePlatform false platform).1
  /\ (shouldConfigurePlatform false platform).1
     = negb (exists_ marker)
       || negb (matchesContent (js "**/*.xcodeproj/project.pbxproj") precheck_pattern).
Proof.
  intros marker descriptors. unfold shouldConfigurePlatform, matchesContent.
  change folderPrefix with (js "platforms"). fold marker descriptors.
  assert (existsb (test precheck_pattern) descriptors = false
          <-> forall content, content ∈ descriptors -> test precheck_pattern content = false)
    as Hnone.
  { rewrite <- not_true_iff_false, existsb_exists. split.
    - intros Hno content Hin. apply not_true_is_false. intros Ht.
      apply Hno. exists content. split; [by apply list_elem_of_In | done].
    - intros Hall (content & Hin%list_elem_of_In & Ht).
      rewrite (Hall content Hin) in Ht. done. }
  destruct (exists_ marker); destruct (existsb (test precheck_pattern) descriptors);
    simpl; (split; [|done]); rewrite <- Hnone; intuition congruence.
Qed.

(** The rule on [sample_fs]: [android] has its marker and a descriptor
    matches, so Apply skips it and uninstall selects it; [ios] has no marker. *)
Lemma shouldConfigurePlatform_example :
  (@shouldConfigurePlatform sample_fs false (js "android")).1 = false
  /\ (@shouldConfigurePlatform sample_fs true (js "android")).1 = true
  /\ (@shouldConfigurePlatform sample_fs false (js "ios")).1 = true
  /\ (@shouldConfigurePlatform sample_fs true (js "ios")).1 = false.
Proof.
  destruct (@shouldConfigurePlatform_rule sample_fs (js "android"))
    as (Handroid & Hneg & _).
  destruct (@shouldConfigurePlatform_rule sample_fs (js "ios")) as (Hios & Hneg' & _).
  assert ((@shouldConfigurePlatform sample_fs false (js "ios")).1 = true) as Hi.
  { apply Hios. by left. }
  assert ((@shouldConfigurePlatform sample_fs false (js "android")).1 = false) as Ha.
  { apply not_true_is_false. intros [Hmarker | Hnone]%Handroid; [done|].
    specialize (Hnone _ (list_elem_of_here _ _)). done. }
  rewrite Hneg, Hneg', Hi, Ha. done.
Defined.

(** *** [emit]: the units *)

Lemma run_app s1 s2 cfg : run (s1 ++ s2) cfg = run s2 (run s1 cfg).
Proof. unfold run. apply fold_left_app. Qed.

Lemma unit_step_events k platform answer st :
  Forall (fun ev => event_unit ev = k) (unit_step k platform answer st).2.
Proof.
  destruct st as [[|i todo]|i todo|r]; simpl; try destruct answer; simpl;
    repeat constructor.
Qed.

Lemma events_of_app k tr1 tr2 :
  events_of k (tr1 ++ tr2) = events_of k tr1 ++ events_of k tr2.
Proof. unfold events_of. apply list.filter_app. Qed.

Lemma events_of_own k evs :
  Forall (fun ev => event_unit ev = k) evs -> events_of k evs = evs.
Proof.
  unfold events_of. induction 1 as [|ev evs Hev _ IH]; [done|].
  by rewrite filter_cons_True, IH.
Qed.

Lemma events_of_other j k evs :
  j <> k -> Forall (fun ev => event_unit ev = j) evs -> events_of k evs = [].
Proof.
  unfold events_of. intros Hne. induction 1 as [|ev evs Hev _ IH]; [done|].
  by rewrite filter_cons_False, IH by congruence.
Qed.

Lemma elem_of_events_of k ev tr : ev ∈ events_of k tr -> ev ∈ tr.
Proof. unfold events_of. by intros [_ ?]%list_elem_of_filter. Qed.

(** A move of unit [j] leaves every other unit, and its events, as they
    were. *)
Lemma sched_step_other cfg j answer k :
  j <> k ->
  units (sched_step cfg (j, answer)) !! k = units cfg !! k
  /\ events_of k (trace (sched_step cfg (j, answer))) = events_of k (trace cfg).
Proof.
  intros Hne. unfold sched_step.
  destruct (units cfg !! j) as [[platform st]|] eqn:Hj; [|done].
  pose proof (unit_step_events j platform answer st) as Hevs.
  destruct (unit_step j platform answer st) as [st' evs]. simpl in *. split.
  - by apply list_lookup_insert_ne.
  - by rewrite events_of_app, (events_of_other j k evs), app_nil_r.
Qed.

Lemma sched_step_own cfg k answer platform st :
  units cfg !! k = Some (platform, st) ->
  units (sched_step cfg (k, answer)) !! k
    = Some (platform, (unit_step k platform answer st).1)
  /\ events_of k (trace (sched_step cfg (k, answer)))
     = events_of k (trace cfg) ++ (unit_step k platform answer st).2.
Proof.
  intros Hk. unfold sched_step. rewrite Hk.
  pose proof (unit_step_events k platform answer st) as Hevs.
  destruct (unit_step k platform answer st) as [st' evs]. simpl in *. split.
  - apply list_lookup_insert_eq. by eapply lookup_lt_Some.
  - by rewrite events_of_app, (events_of_own k evs).
Qed.

(** What a unit does and emits is determined by the answers to its own
    calls. *)
Lemma run_unit schedule : forall cfg k platform st,
  units cfg !! k = Some (platform, st) ->
  units (run schedule cfg) !! k
    = Some (platform, (unit_exec k platform (own_answers k schedule) st).1)
  /\ events_of k (trace (run schedule cfg))
     = events_of k (trace cfg)
       ++ (unit_exec k platform (own_answers k schedule) st).2.
Proof.
  induction schedule as [|[j answer] schedule IH]; intros cfg k platform st Hk.
  - simpl. by rewrite app_nil_r.
  - change (run ((j, answer) :: schedule) cfg)
      with (run schedule (sched_step cfg (j, answer))).
    destruct (decide (j = k)) as [->|Hne].
    + assert (own_answers k ((k, answer) :: schedule)
              = answer :: own_answers k schedule) as ->.
      { unfold own_answers. by rewrite filter_cons_True. }
      destruct (sched_step_own cfg k answer platform st Hk) as [Hst Hevs].
      destruct (IH _ _ _ _ Hst) as [IHst IHevs].
      cbn [unit_exec].
      destruct (unit_step k platform answer st) as [st' evs]. cbn [fst snd] in *.
      destruct (unit_exec k platform (own_answers k schedule) st') as [st'' evs'].
      cbn [fst snd] in *. split; [done|]. by rewrite IHevs, Hevs, <- app_assoc.
    + assert (own_answers k ((j, answer) :: schedule) = own_answers k schedule) as ->.
      { unfold own_answers. by rewrite filter_cons_False. }
      destruct (sched_step_other cfg j answer k Hne) as [Hst Hevs].
      rewrite Hk in Hst. destruct (IH _ _ _ _ Hst) as [IHst IHevs].
      by rewrite IHst, IHevs, Hevs.
Qed.

Lemma emit_start_lookup platforms k platform :
  platforms !! k = Some platform ->
  units (emit_start platforms) !! k = Some (platform, Ready (unit_body platform)).
Proof.
  intros Hk. unfold emit_start. simpl.
  change (map ?f platforms) with (f <$> platforms).
  by rewrite list_lookup_fmap, Hk.
Qed.

Lemma run_platforms schedule : forall cfg,
  map fst (units (run schedule cfg)) = map fst (units cfg).
Proof.
  induction schedule as [|[j answer] schedule IH]; intros cfg; [done|].
  change (run ((j, answer) :: schedule) cfg)
    with (run schedule (sched_step cfg (j, answer))).
  rewrite IH. unfold sched_step.
  destruct (units cfg !! j) as [[platform st]|] eqn:Hj; [|done].
  destruct (unit_step j platform answer st) as [st' evs]. simpl.
  change (map fst ?l) with (fst <$> l).
  rewrite list_fmap_insert. simpl. apply list_insert_id.
  by rewrite list_lookup_fmap, Hj.
Qed.

Lemma unit_exec_settled k platform answers rejection :
  unit_exec k platform answers (Settled rejection) = (Settled rejection, []).
Proof. induction answers as [|a answers IH]; simpl; [done|]. by rewrite IH. Qed.

(** *** No unit rejects *)

Lemma unit_step_not_rejected k platform answer st :
  not_rejected st -> not_rejected (unit_step k platform answer st).1.
Proof.
  intros Hst e. destruct st as [[|i todo]|i todo|r]; simpl.
  - done.
  - done.
  - by destruct answer.
  - apply Hst.
Qed.

Lemma sched_step_not_rejected cfg choice :
  Forall (fun u => not_rejected u.2) (units cfg) ->
  Forall (fun u => not_rejected u.2) (units (sched_step cfg choice)).
Proof.
  intros Hall. destruct choice as [k answer]. unfold sched_step.
  destruct (units cfg !! k) as [[platform st]|] eqn:Hk; [|done].
  pose proof (unit_step_not_rejected k platform answer st) as Hstep.
  destruct (unit_step k platform answer st) as [st' evs]. simpl in *.
  apply Forall_insert; [done|]. simpl. apply Hstep.
  by apply (Forall_lookup_1 _ _ _ _ Hall Hk).
Qed.

Lemma run_not_rejected schedule : forall cfg,
  Forall (fun u => not_rejected u.2) (units cfg) ->
  Forall (fun u => not_rejected u.2) (units (run schedule cfg)).
Proof.
  induction schedule as [|choice schedule IH]; intros cfg Hall; [done|].
  apply (IH (sched_step cfg choice)). by apply sched_step_not_rejected.
Qed.

Lemma emit_start_not_rejected platforms :
  Forall (fun u => not_rejected u.2) (units (emit_start platforms)).
Proof.
  unfold emit_start. simpl. apply Forall_forall. intros u Hu.
  apply in_map_iff in Hu as (platform & <- & _). done.
Qed.

Lemma promise_all_not_rejected (sts : list (list N * unit_state)) :
  Forall (fun u => not_rejected u.2) sts ->
  forall e, promise_all (map (fun u => unit_promise u.2) sts) <> RejectedWith e.
Proof.
  induction 1 as [|[platform st] sts Hst _ IH]; intros e; simpl; [done|].
  destruct st as [todo|i todo|[e'|]]; simpl.
  - specialize (IH e). by destruct (promise_all _).
  - specialize (IH e). by destruct (promise_all _).
  - by destruct (Hst e').
  - apply IH.
Qed.

Lemma promise_all_fulfilled (sts : list (list N * unit_state)) :
  Forall (fun u => not_rejected u.2) sts ->
  promise_all (map (fun u => unit_promise u.2) sts) = Fulfilled
  <-> forallb (fun u => match u.2 with Settled _ => true | _ => false end) sts = true.
Proof.
  induction 1 as [|[platform st] sts Hst _ IH]; simpl; [done|].
  destruct st as [todo|i todo|[e'|]]; simpl.
  - split; [|done]. by destruct (promise_all _).
  - split; [|done]. by destruct (promise_all _).
  - by destruct (Hst e').
  - apply IH.
Qed.

(** *** A failure is caught and printed *)

Lemma unit_step_failures_printed k platform answer st :
  failures_printed (unit_step k platform answer st).2.
Proof.
  intros k' i' e' Hin.
  destruct st as [[|i todo]|i todo|r]; simpl in *.
  - apply list_elem_of_singleton in Hin. done.
  - apply list_elem_of_singleton in Hin. done.
  - destruct answer as [e|]; simpl in *.
    + apply elem_of_cons in Hin as [[= -> -> ->]|Hin].
      * apply list_elem_of_further, list_elem_of_here.
      * apply list_elem_of_singleton in Hin. done.
    + apply list_elem_of_singleton in Hin. done.
  - by apply elem_of_nil in Hin.
Qed.

Lemma run_failures_printed schedule : forall cfg,
  failures_printed (trace cfg) -> failures_printed (trace (run schedule cfg)).
Proof.
  induction schedule as [|[j answer] schedule IH]; intros cfg Htr; [done|].
  apply (IH (sched_step cfg (j, answer))). unfold sched_step.
  destruct (units cfg !! j) as [[platform st]|]; [|done].
  pose proof (unit_step_failures_printed j platform answer st) as Hstep.
  destruct (unit_step j platform answer st) as [st' evs]. simpl in *.
  intros k i e [Hin|Hin]%elem_of_app; apply elem_of_app.
  - left. by apply (Htr k i e).
  - right. by apply (Hstep k i e).
Qed.

(** *** A unit settles *)

Lemma steps_left_step k platform answer st :
  steps_left (unit_step k platform answer st).1 <= pred (steps_left st).
Proof.
  destruct st as [[|i todo]|i todo|r]; simpl; try lia.
  destruct answer; simpl; lia.
Qed.

Lemma steps_left_exec k platform answers : forall st,
  steps_left (unit_exec k platform answers st).1 <= steps_left st - length answers.
Proof.
  induction answers as [|a answers IH]; intros st; simpl; [lia|].
  pose proof (steps_left_step k platform a st) as Hstep.
  destruct (unit_step k platform a st) as [st' evs]. simpl in *.
  specialize (IH st').
  destruct (unit_exec k platform answers st') as [st'' evs']. simpl in *. lia.
Qed.

Lemma steps_left_zero st :
  steps_left st = 0 -> match st with Settled _ => true | _ => false end = true.
Proof. destruct st; simpl; [lia | lia | done]. Qed.

(** With every answer [None] and turns enough, a unit runs its calls, prints
    the success line and is fulfilled. *)
Lemma unit_exec_success k platform : forall todo answers,
  Forall (fun a => a = None) answers ->
  2 * length todo + 1 <= length answers ->
  (unit_exec k platform answers (Ready todo)).1 = Settled None
  /\ success_line k platform ∈ (unit_exec k platform answers (Ready todo)).2.
Proof.
  induction todo as [|i todo IH]; intros answers Hnone Hlen.
  - destruct answers as [|a answers]; simpl in Hlen; [lia|]. simpl.
    rewrite unit_exec_settled. simpl. split; [done|].
    unfold success_line. apply list_elem_of_here.
  - destruct answers as [|a1 [|a2 answers]]; simpl in Hlen; [lia|lia|].
    apply Forall_cons_1 in Hnone as [-> Hnone].
    apply Forall_cons_1 in Hnone as [-> Hnone].
    destruct (IH answers Hnone ltac:(lia)) as [Hst Hline].
    cbn [unit_exec unit_step].
    destruct (unit_exec k platform answers (Ready todo)) as [st evs].
    simpl in *. split; [done|]. by do 2 apply list_elem_of_further.
Qed.

Lemma unit_body_length platform : length (unit_body platform) <= 2.
Proof. unfold unit_body. destruct (str_eqb platform (js "ios")); simpl; lia. Qed.

Lemma steps_left_le_total (units_ : list (list N * unit_state)) k platform st :
  units_ !! k = Some (platform, st) ->
  steps_left st <= foldr (fun u n => steps_left u.2 + n) 0 units_.
Proof.
  revert k. induction units_ as [|u units_ IH]; intros k Hk; [done|].
  destruct k as [|k]; simpl in *.
  - injection Hk as ->. simpl. lia.
  - specialize (IH k Hk). lia.
Qed.

Lemma own_answers_app k s1 s2 :
  own_answers k (s1 ++ s2) = own_answers k s1 ++ own_answers k s2.
Proof. unfold own_answers. by rewrite list.filter_app, map_app. Qed.

Lemma own_answers_replicate k j n (a : option error) :
  own_answers k (replicate n (j, a)) = if decide (j = k) then replicate n a else [].
Proof.
  unfold own_answers. induction n as [|n IH]; simpl.
  - by case_decide.
  - rewrite filter_cons. simpl. case_decide; simpl; [by rewrite IH | done].
Qed.

Lemma own_answers_drain n a count k :
  k < count -> length (own_answers k (drain n a count)) = n.
Proof.
  unfold drain. induction count as [|count IH]; [lia|]. intros Hk.
  rewrite seq_S, flat_map_app, own_answers_app, length_app. simpl.
  rewrite app_nil_r, own_answers_replicate.
  destruct (decide (count = k)) as [->|Hne].
  - rewrite length_replicate.
    assert (own_answers k (flat_map (fun j => replicate n (j, a)) (seq 0 k)) = [])
      as ->; [|done].
    clear. assert (forall l, k ∉ l ->
              own_answers k (flat_map (fun j => replicate n (j, a)) l) = []) as Hnone.
    { induction l as [|j l IHl]; [done|]. intros [Hj Hl]%not_elem_of_cons.
      simpl. rewrite own_answers_app, own_answers_replicate, IHl by done.
      by rewrite decide_False by congruence. }
    apply Hnone. rewrite list_elem_of_In, in_seq. lia.
  - simpl. rewrite IH by lia. lia.
Qed.

(** From any configuration, giving every unit turns enough settles all of
    them, whatever the answers. *)
Lemma drain_settles cfg a :
  all_settled (run (drain (total_left cfg) a (length (units cfg))) cfg) = true.
Proof.
  unfold all_settled. apply forallb_forall. intros u Hu.
  apply list_elem_of_In, list_elem_of_lookup in Hu as [k Hk].
  assert (k < length (units cfg)) as Hlt.
  { apply lookup_lt_Some in Hk.
    rewrite <- (length_map fst), run_platforms, length_map in Hk. done. }
  destruct (lookup_lt_is_Some_2 _ _ Hlt) as [[platform st] Hst].
  destruct (run_unit (drain (total_left cfg) a (length (units cfg))) cfg k platform st Hst)
    as [Hrun _].
  rewrite Hk in Hrun. injection Hrun as ->. simpl.
  apply steps_left_zero.
  pose proof (steps_left_exec k platform
                (own_answers k (drain (total_left cfg) a (length (units cfg)))) st) as Hle.
  rewrite own_answers_drain in Hle by done.
  pose proof (steps_left_le_total _ _ _ _ Hst) as Hst_le.
  fold (total_left cfg) in Hst_le. lia.
Qed.

Lemma drain_answers n a count : Forall (fun c : nat * option error => c.2 = a) (drain n a count).
Proof.
  unfold drain. apply list.Forall_forall. intros c Hc.
  apply list_elem_of_In, in_flat_map in Hc as (k & _ & Hc).
  apply list_elem_of_In, elem_of_replicate in Hc as [-> _]. done.
Qed.

(** C7: in every interleaving of the units and whatever the awaited calls
    answer, no unit's promise is rejected, so that of [emit] never is, and it
    is fulfilled exactly when every unit has settled; what a unit does and
    prints is determined by the answers to its own calls alone; an error
    thrown in a unit is printed by that unit's [red]; a unit whose own calls
    all complete prints its success line and is fulfilled, whatever happens
    in the others; and every run can be continued until [emit] is
    fulfilled. *)
Theorem emit_units_independent (platforms : list (list N))
    (schedule : list (nat * option error)) :
  let cfg := emit platforms schedule in
  Forall (fun u => not_rejected u.2) (units cfg)
  /\ (forall e, emit_promise cfg <> RejectedWith e)
  /\ (emit_promise cfg = Fulfilled <-> all_settled cfg = true)
  /\ (forall k platform,
        platforms !! k = Some platform ->
        let alone :=
          unit_exec k platform (own_answers k schedule) (Ready (unit_body platform)) in
        units cfg !! k = Some (platform, alone.1)
        /\ events_of k (trace cfg) = alone.2)
  /\ failures_printed (trace cfg)
  /\ (forall k platform,
        platforms !! k = Some platform ->
        Forall (fun a => a = None) (own_answers k schedule) ->
        2 * length (unit_body platform) + 1 <= length (own_answers k schedule) ->
        units cfg !! k = Some (platform, Settled None)
        /\ success_line k platform ∈ trace cfg)
  /\ (forall a, exists more,
        Forall (fun c => c.2 = a) more
        /\ emit_promise (emit platforms (schedule ++ more)) = Fulfilled).
Proof.
  intros cfg. subst cfg. unfold emit.
  set (cfg := run schedule (emit_start platforms)).
  assert (forall s, Forall (fun u => not_rejected u.2)
                      (units (run s (emit_start platforms)))) as Hnr.
  { intros s. apply run_not_rejected, emit_start_not_rejected. }
  assert (forall k platform,
            platforms !! k = Some platform ->
            units cfg !! k
              = Some (platform,
                      (unit_exec k platform (own_answers k schedule)
                         (Ready (unit_body platform))).1)
            /\ events_of k (trace cfg)
               = (unit_exec k platform (own_answers k schedule)
                    (Ready (unit_body platform))).2) as Hunit.
  { intros k platform Hk.
    apply (run_unit schedule (emit_start platforms) k platform), emit_start_lookup, Hk. }
  split; [|split; [|split; [|split; [|split; [|split]]]]].
  - apply Hnr.
  - apply promise_all_not_rejected, Hnr.
  - apply promise_all_fulfilled, Hnr.
  - exact Hunit.
  - apply run_failures_printed. intros k i e Hin. by apply elem_of_nil in Hin.
  - intros k platform Hk Hnone Hlen.
    destruct (Hunit k platform Hk) as [Hst Hevs].
    destruct (unit_exec_success k platform (unit_body platform) _ Hnone Hlen)
      as [Hsettled Hline].
    rewrite Hsettled in Hst. split; [exact Hst|].
    apply (elem_of_events_of k). by rewrite Hevs.
  - intros a. exists (drain (total_left cfg) a (length (units cfg))).
    split; [apply drain_answers|].
    apply promise_all_fulfilled; [apply Hnr|].
    rewrite run_app. apply drain_settles.
Qed.

(** Two platforms; the descriptor of [ios] does not parse, [android]
    completes: one warning, one success line, and [emit] is fulfilled. *)
Lemma emit_units_independent_example :
  let cfg :=
    emit [js "ios"; js "android"]
         [(0, None); (1, None); (0, Some ParseError); (1, None); (1, None)] in
  emit_promise cfg = Fulfilled
  /\ Logged 0 (Red (js "ParseError")) ∈ trace cfg
  /\ units cfg !! 1 = Some (js "android", Settled None)
  /\ success_line 1 (js "android") ∈ trace cfg.
Proof.
  intros cfg.
  destruct (emit_units_independent [js "ios"; js "android"]
              [(0, None); (1, None); (0, Some ParseError); (1, None); (1, None)])
    as (_ & _ & Hfulfilled & _ & Hprinted & Hsuccess & _).
  split; [by apply Hfulfilled|]. split.
  - apply (Hprinted 0 (PatchMatchingFile (js "platforms/ios/*.xcodeproj/project.pbxproj"))
             ParseError).
    apply list_elem_of_lookup. by exists 2.
  - apply (Hsuccess 1 (js "android") eq_refl).
    + by repeat constructor.
    + vm_compute. lia.
Defined.

(** *** Order within a unit *)

Lemma unit_body_ios :
  unit_body (js "ios")
  = [PatchMatchingFile (js "platforms/ios/*.xcodeproj/project.pbxproj");
     AddSentryProperties (js "ios")].
Proof. reflexivity. Qed.

Lemma unit_body_other platform :
  platform <> js "ios" -> unit_body platform = [AddSentryProperties platform].
Proof.
  intros Hne. unfold unit_body, str_eqb. by rewrite bool_decide_false.
Qed.

Ltac not_in_events Hin :=
  repeat (apply elem_of_cons in Hin as [Hin|Hin]; [discriminate Hin|]);
  by apply elem_of_nil in Hin.

(** The events of an [ios] unit: either the properties write has not begun,
    or the patch began and completed first. *)
Lemma unit_exec_ios_order k answers :
  let evs := (unit_exec k (js "ios") answers (Ready (unit_body (js "ios")))).2 in
  (forall arg, Began k (AddSentryProperties arg) ∉ evs)
  \/ (exists globPattern rest,
        evs = Began k (PatchMatchingFile globPattern)
              :: Completed k (PatchMatchingFile globPattern) :: rest).
Proof.
  rewrite unit_body_ios.
  destruct answers as [|a1 [|a2 rest]]; cbn [unit_exec unit_step].
  - left. intros arg Hin. not_in_events Hin.
  - left. intros arg Hin. simpl in Hin. not_in_events Hin.
  - destruct a2 as [e|].
    + left. intros arg Hin. cbn [catch_handler] in Hin.
      rewrite unit_exec_settled in Hin. simpl in Hin. not_in_events Hin.
    + right. destruct (unit_exec k (js "ios") rest _) as [st evs]. simpl. eauto.
Qed.

(** A unit of another platform never runs the patch step. *)
Lemma unit_exec_other_no_patch k platform answers globPattern :
  platform <> js "ios" ->
  Began k (PatchMatchingFile globPattern)
  ∉ (unit_exec k platform answers (Ready (unit_body platform))).2.
Proof.
  intros Hne Hin. rewrite (unit_body_other platform Hne) in Hin.
  destruct answers as [|a1 [|a2 [|a3 rest]]]; cbn [unit_exec unit_step] in Hin.
  - not_in_events Hin.
  - simpl in Hin. not_in_events Hin.
  - destruct a2 as [e|]; simpl in Hin; not_in_events Hin.
  - destruct a2 as [e|]; cbn [unit_exec unit_step catch_handler] in Hin;
      rewrite unit_exec_settled in Hin; simpl in Hin; not_in_events Hin.
Qed.

(** C9: in every interleaving, within the unit of the [ios] platform the
    patch step has completed before the properties write begins; the unit of
    any other platform runs no patch step. *)
Theorem patch_precedes_properties (platforms : list (list N))
    (schedule : list (nat * option error)) (k : nat) (platform : list N) :
  platforms !! k = Some platform ->
  let tr := trace (emit platforms schedule) in
  (platform = js "ios" ->
   forall before after arg,
     tr = before ++ Began k (AddSentryProperties arg) :: after ->
     exists globPattern, Completed k (PatchMatchingFile globPattern) ∈ before)
  /\ (platform <> js "ios" ->
      forall globPattern, Began k (PatchMatchingFile globPattern) ∉ tr).
Proof.
  intros Hk tr. subst tr. unfold emit.
  set (tr := trace (run schedule (emit_start platforms))).
  destruct (run_unit schedule (emit_start platforms) k platform _
              (emit_start_lookup platforms k platform Hk)) as [_ Hevs].
  fold tr in Hevs. simpl in Hevs. split.
  - intros -> before after arg Htr.
    rewrite Htr, events_of_app in Hevs. unfold events_of at 2 in Hevs.
    rewrite filter_cons_True in Hevs by done.
    fold (events_of k after) in Hevs.
    destruct (unit_exec_ios_order k (own_answers k schedule))
      as [Hnot | (globPattern & rest & Horder)].
    + exfalso. apply (Hnot arg). rewrite <- Hevs.
      apply elem_of_app. right. apply list_elem_of_here.
    + exists globPattern. apply (elem_of_events_of k).
      rewrite Horder in Hevs.
      destruct (events_of k before) as [|ev1 [|ev2 evs]]; simpl in Hevs.
      * discriminate Hevs.
      * discriminate Hevs.
      * injection Hevs as -> -> _. apply list_elem_of_further, list_elem_of_here.
  - intros Hne globPattern Hin.
    apply (unit_exec_other_no_patch k platform (own_answers k schedule) globPattern Hne).
    rewrite <- Hevs. unfold events_of. apply list_elem_of_filter. by split.
Qed.

(** The trace of a run of [ios] beside [android]: the write of [ios] begins
    at the fifth event, after its patch completed at the third. *)
Lemma patch_precedes_properties_example :
  exists globPattern,
    Completed 0 (PatchMatchingFile globPattern)
    ∈ [Began 0 (PatchMatchingFile (js "platforms/ios/*.xcodeproj/project.pbxproj"));
       Began 1 (AddSentryProperties (js "android"));
       Completed 0 (PatchMatchingFile (js "platforms/ios/*.xcodeproj/project.pbxproj"));
       Completed 1 (AddSentryProperties (js "android"))].
Proof.
  destruct (patch_precedes_properties [js "ios"; js "android"]
              [(0, None); (1, None); (0, None); (1, None); (0, None); (0, Some WriteError)]
              0 (js "ios") eq_refl) as [Hios _].
  apply (Hios eq_refl _
           [Failed 0 (AddSentryProperties (js "ios")) WriteError;
            Logged 0 (Red (js "WriteError"))]
           (js "ios")).
  reflexivity.
Defined.

End OrchestratorFacts.

(** ** More on [Helper/Package.ts] *)
Module PackageExtras.
Import Js Package PackageFacts.

Lemma truthy_default (o : option (list N)) : truthy_string (default [] o) = truthy o.
Proof. by destruct o. Qed.

Section WithSemver.
Context `{Semver}.

(** [hasPackageInstalled] is false exactly when [checkPackageVersion] gives
    up before it looks at any version: it returns false and prints the two
    lines asking to install the package, whatever the acceptable range. *)
Theorem not_installed_iff_install_hint (appPackage : PackageDotJson)
    (packageName acceptableVersions : list N) (canBeLatest : bool) :
  hasPackageInstalled appPackage packageName = false
  <-> checkPackageVersion (Some appPackage) packageName acceptableVersions canBeLatest
      = (false,
         [Red ([10007%N] ++ js " " ++ packageName ++ js " isn't in your dependencies.");
          Red (js "  Please install it with yarn/npm.")]).
Proof.
  unfold hasPackageInstalled, checkPackageVersion, listed_version.
  destruct appPackage as [deps devDeps]. simpl.
  assert (forall field : option (gmap (list N) (list N)),
            truthy_string
              match field with Some d => default [] (d !! packageName) | None => [] end
            = truthy match field with Some d => d !! packageName | None => None end)
    as Htruthy.
  { intros [d|]; [apply truthy_default | done]. }
  rewrite !Htruthy.
  destruct (truthy match deps with Some d => d !! packageName | None => None end),
           (truthy match devDeps with Some d => d !! packageName | None => None end);
    simpl; [| | |done];
    (split; [discriminate|]);
    match goal with
    | |- context [if ?c then _ else _] => destruct c
    end; discriminate.
Qed.

(** [canBeLatest] matters for the literal [latest] only. *)
Lemma fulfillsVersionRange_not_latest version acceptableVersions canBeLatest :
  version <> js "latest" ->
  fulfillsVersionRange version acceptableVersions canBeLatest
  = fulfillsVersionRange version acceptableVersions false.
Proof.
  intros Hne. unfold fulfillsVersionRange.
  by rewrite (proj2 (str_eqb_false _ _) Hne).
Qed.

Lemma fulfillsVersionRange_allow_latest version acceptableVersions :
  fulfillsVersionRange version acceptableVersions false = true ->
  fulfillsVersionRange version acceptableVersions true = true.
Proof.
  unfold fulfillsVersionRange. by destruct (str_eqb version (js "latest")).
Qed.

(** Allowing [latest] never turns an accepted manifest into a rejected one,
    and changes nothing when neither listed version is [latest]. *)
Theorem canBeLatest_only_widens (appPackage : option PackageDotJson)
    (packageName acceptableVersions : list N) :
  ((checkPackageVersion appPackage packageName acceptableVersions false).1 = true ->
   (checkPackageVersion appPackage packageName acceptableVersions true).1 = true)
  /\ (listed_version appPackage dependencies packageName <> js "latest" ->
      listed_version appPackage devDependencies packageName <> js "latest" ->
      checkPackageVersion appPackage packageName acceptableVersions true
      = checkPackageVersion appPackage packageName acceptableVersions false).
Proof.
  unfold checkPackageVersion.
  set (depsVersion := listed_version appPackage dependencies packageName).
  set (devDepsVersion := listed_version appPackage devDependencies packageName).
  split.
  - destruct (negb (truthy_string depsVersion) && negb (truthy_string devDepsVersion));
      [done|].
    pose proof (fulfillsVersionRange_allow_latest depsVersion acceptableVersions) as Hd.
    pose proof (fulfillsVersionRange_allow_latest devDepsVersion acceptableVersions) as Hv.
    destruct (fulfillsVersionRange depsVersion acceptableVersions false).
    { by rewrite Hd. }
    destruct (fulfillsVersionRange devDepsVersion acceptableVersions false); [|done].
    intros _. by rewrite Hv, andb_false_r.
  - intros Hd Hv.
    by rewrite (fulfillsVersionRange_not_latest depsVersion _ true Hd),
               (fulfillsVersionRange_not_latest devDepsVersion _ true Hv).
Qed.

(** The check does not tell [dependencies] from [devDependencies]: swapping
    the two fields changes neither the result nor what is printed. *)
Theorem checkPackageVersion_swap
    (deps devDeps : option (gmap (list N) (list N)))
    (packageName acceptableVersions : list N) (canBeLatest : bool) :
  checkPackageVersion
    (Some {| dependencies := deps; devDependencies := devDeps |})
    packageName acceptableVersions canBeLatest
  = checkPackageVersion
      (Some {| dependencies := devDeps; devDependencies := deps |})
      packageName acceptableVersions canBeLatest.
Proof.
  unfold checkPackageVersion, listed_version. simpl.
  set (a := match deps with Some d => default [] (d !! packageName) | None => [] end).
  set (b := match devDeps with Some d => default [] (d !! packageName) | None => [] end).
  rewrite (andb_comm (negb (truthy_string b))).
  by rewrite (andb_comm (negb (fulfillsVersionRange b acceptableVersions canBeLatest))).
Qed.

End WithSemver.

End PackageExtras.

(** ** The strings the three patterns match *)
Module RegExpLanguage.
Import Js RegExp RegExpFacts Xcode Cordova.

Lemma before_position_cons prev c read :
  before_position prev (c :: read) = before_position (Some c) read.
Proof.
  unfold before_position. destruct read as [|c' read]; [done|].
  rewrite list.last_cons_cons.
  destruct (list.last (c' :: read)) eqn:Hlast; [done|].
  by apply list.last_None in Hlast.
Qed.

(** Literal characters match themselves, one after the other. *)
Lemma match_here_lits p re prev s :
  match_here (lits p ++ re) prev s = true
  <-> exists rest, s = p ++ rest /\ match_here re (before_position prev p) rest = true.
Proof.
  revert prev s. induction p as [|c p IH]; intros prev s; simpl.
  - split; [intros Hm; by exists s | by intros (rest & -> & Hm)].
  - destruct s as [|x s].
    + split; [done | by intros (rest & [=] & _)].
    + rewrite andb_true_iff, N.eqb_eq, IH. split.
      * intros (-> & rest & -> & Hm). exists rest.
        by rewrite before_position_cons.
      * intros (rest & [= -> ->] & Hm). split; [done|]. exists rest.
        by rewrite before_position_cons in Hm.
Qed.

(** Under flag [i] each character matches up to case. *)
Lemma match_here_litsI_iff p re prev s :
  match_here (litsI p ++ re) prev s = true
  <-> exists read rest,
        s = read ++ rest
        /\ map canonicalize read = map canonicalize p
        /\ match_here re (before_position prev read) rest = true.
Proof.
  revert prev s. induction p as [|c p IH]; intros prev s; simpl.
  - split.
    + intros Hm. by exists [], s.
    + intros (read & rest & -> & Hread & Hm).
      by destruct read.
  - destruct s as [|x s].
    + split; [done|]. intros (read & rest & Hs & Hread & _).
      destruct read; [done|]. discriminate Hs.
    + rewrite andb_true_iff, N.eqb_eq, IH. split.
      * intros (Hx & read & rest & -> & Hread & Hm). exists (x :: read), rest.
        split; [done|]. split; [by rewrite <- Hx, <- Hread|].
        by rewrite before_position_cons.
      * intros (read & rest & Hs & Hread & Hm).
        destruct read as [|y read]; [done|].
        injection Hs as -> ->. injection Hread as Hx Hread.
        split; [done|]. exists read, rest.
        by rewrite before_position_cons in Hm.
Qed.

(** [\s+] reads a non-empty run of white space. *)
Lemma match_here_space_plus re prev s :
  match_here (SpacePlus :: re) prev s = true
  <-> exists gap rest,
        s = gap ++ rest /\ gap <> []
        /\ Forall (fun c => is_space c = true) gap
        /\ match_here re (before_position prev gap) rest = true.
Proof.
  cbn [match_here]. revert prev.
  induction s as [|x s IH]; intros prev.
  - split; [done|]. intros (gap & rest & Hs & Hne & _).
    by destruct gap.
  - rewrite andb_true_iff, orb_true_iff, (IH (Some x)). split.
    + intros (Hx & [(gap & rest & -> & Hne & Hgap & Hm) | Hm]).
      * exists (x :: gap), rest. split; [done|]. split; [done|].
        split; [by constructor|]. by rewrite before_position_cons.
      * exists [x], s. split; [done|]. split; [done|].
        split; [by repeat constructor | done].
    + intros (gap & rest & Hs & Hne & Hgap & Hm).
      destruct gap as [|y gap]; [done|]. injection Hs as -> ->.
      apply Forall_cons_1 in Hgap as [Hx Hgap]. split; [done|].
      destruct gap as [|z gap].
      * right. done.
      * left. exists (z :: gap), rest. split; [done|]. split; [done|].
        split; [done|]. by rewrite before_position_cons in Hm.
Qed.

(** The search finds the pattern at some position. *)
Lemma search_iff re prev s :
  search re prev s = true
  <-> exists before rest,
        s = before ++ rest /\ match_here re (before_position prev before) rest = true.
Proof.
  revert prev. induction s as [|x s IH]; intros prev; rewrite search_unfold.
  - rewrite orb_false_r. split.
    + intros Hm. by exists [], [].
    + intros (before & rest & Hs & Hm).
      symmetry in Hs. apply app_eq_nil in Hs as [-> ->]. done.
  - rewrite orb_true_iff, (IH (Some x)). split.
    + intros [Hm | (before & rest & -> & Hm)].
      * by exists [], (x :: s).
      * exists (x :: before), rest. split; [done|].
        by rewrite before_position_cons.
    + intros (before & rest & Hs & Hm). destruct before as [|y before].
      * left. simpl in Hs. by subst rest.
      * right. injection Hs as -> ->. exists before, rest. split; [done|].
        by rewrite before_position_cons in Hm.
Qed.

(** The bodies Apply takes for already patched: those that contain
    [sentry-cli], a non-empty run of white space, and [upload-dsym]. *)
Theorem apply_pattern_language (body : list N) :
  test apply_pattern body = true
  <-> exists before gap after,
        body = before ++ js "sentry-cli" ++ gap ++ js "upload-dsym" ++ after
        /\ gap <> []
        /\ Forall (fun c => is_space c = true) gap.
Proof.
  unfold test. rewrite search_iff.
  change apply_pattern
    with (lits (js "sentry-cli") ++ SpacePlus :: (lits (js "upload-dsym") ++ [])).
  split.
  - intros (before & rest & -> & Hm).
    apply match_here_lits in Hm as (rest1 & -> & Hm).
    apply match_here_space_plus in Hm as (gap & rest2 & -> & Hne & Hgap & Hm).
    apply match_here_lits in Hm as (after & -> & _).
    by exists before, gap, after.
  - intros (before & gap & after & -> & Hne & Hgap).
    exists before, (js "sentry-cli" ++ gap ++ js "upload-dsym" ++ after).
    split; [done|]. apply match_here_lits. eexists. split; [done|].
    apply match_here_space_plus. exists gap, (js "upload-dsym" ++ after).
    split; [done|]. split; [done|]. split; [done|].
    apply match_here_lits. by exists after.
Qed.

(** The bodies Revert removes: those that contain
    [@sentry/cli/bin/sentry-cli], a non-empty run of white space, and
    [upload-dsym] followed by the end of the body or by a character that is
    not a word character. *)
Theorem revert_pattern_language (body : list N) :
  test revert_pattern body = true
  <-> exists before gap after,
        body = before ++ js "@sentry/cli/bin/sentry-cli" ++ gap
               ++ js "upload-dsym" ++ after
        /\ gap <> []
        /\ Forall (fun c => is_space c = true) gap
        /\ is_word_at (head after) = false.
Proof.
  unfold test. rewrite search_iff.
  change revert_pattern
    with (lits (js "@sentry/cli/bin/sentry-cli")
          ++ SpacePlus :: (lits (js "upload-dsym") ++ [WordBoundary])).
  assert (forall prev after,
            match_here [WordBoundary] (before_position prev (js "upload-dsym")) after
            = negb (is_word_at (head after))) as Hboundary.
  { intros prev after. cbn [match_here].
    change (before_position prev (js "upload-dsym")) with (Some 109%N).
    change (is_word_at (Some 109%N)) with true.
    by destruct (is_word_at (head after)). }
  split.
  - intros (before & rest & -> & Hm).
    apply match_here_lits in Hm as (rest1 & -> & Hm).
    apply match_here_space_plus in Hm as (gap & rest2 & -> & Hne & Hgap & Hm).
    apply match_here_lits in Hm as (after & -> & Hm).
    rewrite Hboundary in Hm. apply negb_true_iff in Hm.
    by exists before, gap, after.
  - intros (before & gap & after & -> & Hne & Hgap & Hafter).
    exists before,
      (js "@sentry/cli/bin/sentry-cli" ++ gap ++ js "upload-dsym" ++ after).
    split; [done|]. apply match_here_lits. eexists. split; [done|].
    apply match_here_space_plus. exists gap, (js "upload-dsym" ++ after).
    split; [done|]. split; [done|]. split; [done|].
    apply match_here_lits. exists after. split; [done|].
    rewrite Hboundary. by apply negb_true_iff.
Qed.

(** The contents the pre-check accepts: those that contain [sentry-cli] in
    any mix of upper and lower case. *)
Theorem precheck_pattern_language (content : list N) :
  test precheck_pattern content = true
  <-> exists before found after,
        content = before ++ found ++ after
        /\ map canonicalize found = map canonicalize (js "sentry-cli").
Proof.
  unfold test. rewrite search_iff.
  change precheck_pattern with (litsI (js "sentry-cli") ++ []).
  split.
  - intros (before & rest & -> & Hm).
    apply match_here_litsI_iff in Hm as (found & after & -> & Hfound & _).
    by exists before, found, after.
  - intros (before & found & after & -> & Hfound).
    exists before, (found ++ after). split; [done|].
    apply match_here_litsI_iff. by exists found, after.
Qed.

End RegExpLanguage.

(** ** More on Revert *)
Module RevertExtras.
Import Js JsObject JsObjectFacts RegExp Xcode Cordova Samples Reference.
Import ApplyFacts RevertFacts EngineFacts.

Lemma spliced_entry_app keys1 keys2 entry :
  spliced_entry keys2 (spliced_entry keys1 entry) = spliced_entry (keys1 ++ keys2) entry.
Proof.
  destruct entry as [text|[[phases|] fields]]; simpl; [done| |done].
  unfold spliced. by rewrite fold_left_app.
Qed.

Lemma obj_delete_sublist {V : Type} (k : list N) (o : list (list N * V)) :
  obj_delete k o `sublist_of` o.
Proof. unfold obj_delete. apply sublist_filter. Qed.

(** What one call of [splice_first_target] that returns does to the target
    section. *)
Lemma splice_first_target_ok firstTarget key nativeTargets nativeTargets' :
  splice_first_target firstTarget key nativeTargets = Ok nativeTargets' ->
  (forall other, other <> firstTarget ->
     obj_get other nativeTargets' = obj_get other nativeTargets)
  /\ (exists entry,
        obj_get firstTarget nativeTargets = Some entry
        /\ obj_get firstTarget nativeTargets' = Some (spliced_entry [key] entry)).
Proof.
  unfold splice_first_target.
  destruct (obj_get firstTarget nativeTargets) as [[text|t]|] eqn:Hfirst; [| |done].
  - intros [= <-]. split; [done|]. by exists (TargetComment text).
  - destruct (buildPhases t) as [phases|] eqn:Hphases.
    + intros [= <-]. split.
      * intros other Hother. by apply obj_get_set_ne.
      * exists (TargetObject t). split; [done|]. rewrite obj_get_set_eq.
        simpl. by rewrite Hphases.
    + intros [= <-]. split; [done|]. exists (TargetObject t). split; [done|].
      simpl. by rewrite Hphases.
Qed.

(** What a round of the loop that returns leaves behind. *)
Lemma unpatch_key_ok firstTarget scripts nativeTargets key scripts' nativeTargets' :
  unpatch_key firstTarget (scripts, nativeTargets) key = Ok (scripts', nativeTargets') ->
  scripts' `sublist_of` scripts
  /\ (forall k, is_match scripts' k = true -> is_match scripts k = true /\ k <> key)
  /\ (forall other, other <> firstTarget ->
        obj_get other nativeTargets' = obj_get other nativeTargets)
  /\ (forall entry, obj_get firstTarget nativeTargets = Some entry ->
        exists keys, obj_get firstTarget nativeTargets' = Some (spliced_entry keys entry)).
Proof.
  unfold unpatch_key.
  assert (is_match scripts key = false ->
          scripts `sublist_of` scripts
          /\ (forall k, is_match scripts k = true -> is_match scripts k = true /\ k <> key)
          /\ (forall other, other <> firstTarget ->
                obj_get other nativeTargets = obj_get other nativeTargets)
          /\ (forall entry, obj_get firstTarget nativeTargets = Some entry ->
                exists keys,
                  obj_get firstTarget nativeTargets = Some (spliced_entry keys entry)))
    as Hunchanged.
  { intros Hkey. split; [done|]. split; [|split; [done|]].
    - intros k Hk. split; [done|]. intros ->. congruence.
    - intros entry Hentry. exists []. by rewrite spliced_entry_nil. }
  destruct (obj_get key scripts) as [[text|script]|] eqn:Hget.
  - intros [= <- <-]. apply Hunchanged. unfold is_match. by rewrite Hget.
  - destruct (test revert_pattern (shellScript script)) eqn:Ht.
    + destruct (splice_first_target firstTarget key nativeTargets)
        as [targets1|e] eqn:Hsplice; [|done].
      simpl. intros [= <- <-].
      apply splice_first_target_ok in Hsplice as [Hothers (entry0 & Hentry0 & Hfirst)].
      split; [|split; [|split]].
      * etrans; apply obj_delete_sublist.
      * intros k Hk. unfold is_match in Hk |- *.
        destruct (decide (k = comment_key key)) as [->|Hnc].
        { by rewrite obj_get_delete_eq in Hk. }
        rewrite obj_get_delete_ne in Hk by done.
        destruct (decide (k = key)) as [->|Hnk].
        { by rewrite obj_get_delete_eq in Hk. }
        rewrite obj_get_delete_ne in Hk by done. done.
      * exact Hothers.
      * intros entry Hentry. exists [key]. congruence.
    + intros [= <- <-]. apply Hunchanged. unfold is_match. by rewrite Hget.
  - intros [= <- <-]. apply Hunchanged. unfold is_match. by rewrite Hget.
Qed.

Lemma unpatch_keys_ok firstTarget keys : forall scripts nativeTargets scripts' nativeTargets',
  unpatch_keys firstTarget keys (scripts, nativeTargets) = Ok (scripts', nativeTargets') ->
  scripts' `sublist_of` scripts
  /\ (forall k, is_match scripts' k = true -> is_match scripts k = true /\ k ∉ keys)
  /\ (forall other, other <> firstTarget ->
        obj_get other nativeTargets' = obj_get other nativeTargets)
  /\ (forall entry, obj_get firstTarget nativeTargets = Some entry ->
        exists removed, obj_get firstTarget nativeTargets' = Some (spliced_entry removed entry)).
Proof.
  induction keys as [|key keys IH]; intros scripts nativeTargets scripts' nativeTargets';
    cbn [unpatch_keys].
  - intros [= <- <-]. split; [done|]. split.
    { intros k Hk. split; [done | apply not_elem_of_nil]. }
    split; [done|]. intros entry Hentry. exists []. by rewrite spliced_entry_nil.
  - destruct (unpatch_key firstTarget (scripts, nativeTargets) key)
      as [[scripts1 targets1]|e] eqn:Hround; [|done].
    cbn [bind]. intros Hrest.
    apply unpatch_key_ok in Hround as (Hsub1 & Hmatch1 & Hothers1 & Hfirst1).
    apply IH in Hrest as (Hsub & Hmatch & Hothers & Hfirst).
    split; [by etrans|]. split; [|split].
    + intros k Hk. destruct (Hmatch k Hk) as [Hk1 Hnotin].
      destruct (Hmatch1 k Hk1) as [Hk0 Hne]. split; [done|].
      apply not_elem_of_cons. by split.
    + intros other Hother. by rewrite Hothers, Hothers1.
    + intros entry Hentry. destruct (Hfirst1 entry Hentry) as [keys1 Hentry1].
      destruct (Hfirst _ Hentry1) as [keys2 Hentry2].
      exists (keys1 ++ keys2). by rewrite Hentry2, spliced_entry_app.
Qed.

Lemma unpatchXcodeBuildScripts_inv proj proj' :
  unpatchXcodeBuildScripts proj = Ok proj' ->
  exists scripts' targets',
    unpatch_keys (firstTargetUuid proj) (obj_keys (shell_script_section proj))
      (shell_script_section proj, PBXNativeTarget proj) = Ok (scripts', targets')
    /\ shell_script_section proj' = scripts'
    /\ PBXNativeTarget proj' = targets'
    /\ firstTargetUuid proj' = firstTargetUuid proj
    /\ otherSections proj' = otherSections proj.
Proof.
  unfold unpatchXcodeBuildScripts.
  destruct (unpatch_keys _ _ _) as [[scripts' targets']|e] eqn:Hloop; [|done].
  simpl. intros [= <-]. exists scripts', targets'. split; [done|].
  split; [|done]. unfold shell_script_section in *. simpl.
  destruct (PBXShellScriptBuildPhase proj) as [section|]; [done|]. simpl in *.
  by injection Hloop as <- _.
Qed.

(** Revert only removes: the records left in the section are records it had,
    in their order; the first target's [buildPhases] is what is left of it
    after splices, in its order; no other target and no other section is
    touched, and the first target stays the first target. *)
Theorem revert_only_removes (proj proj' : Project) :
  unpatchXcodeBuildScripts proj = Ok proj' ->
  shell_script_section proj' `sublist_of` shell_script_section proj
  /\ (forall entry,
        obj_get (firstTargetUuid proj) (PBXNativeTarget proj) = Some entry ->
        exists removed,
          obj_get (firstTargetUuid proj) (PBXNativeTarget proj')
            = Some (spliced_entry removed entry)
          /\ forall phases, spliced removed phases `sublist_of` phases)
  /\ (forall other, other <> firstTargetUuid proj ->
        obj_get other (PBXNativeTarget proj') = obj_get other (PBXNativeTarget proj))
  /\ firstTargetUuid proj' = firstTargetUuid proj
  /\ otherSections proj' = otherSections proj.
Proof.
  intros (scripts' & targets' & Hloop & -> & -> & Hfirst & Hothers)%unpatchXcodeBuildScripts_inv.
  apply unpatch_keys_ok in Hloop as (Hsub & _ & Huntouched & Hentry).
  split; [done|]. split; [|done].
  intros entry Hget. destruct (Hentry entry Hget) as [removed Hremoved].
  exists removed. split; [done|]. intros phases. apply spliced_sublist.
Qed.

(** Revert is idempotent: on the descriptor it returns, it returns that
    descriptor. *)
Theorem revert_idempotent (proj proj' : Project) :
  unpatchXcodeBuildScripts proj = Ok proj' ->
  unpatchXcodeBuildScripts proj' = Ok proj'.
Proof.
  intros (scripts' & targets' & Hloop & Hsection & _)%unpatchXcodeBuildScripts_inv.
  apply unpatch_keys_ok in Hloop as (_ & Hmatch & _).
  apply unpatch_no_match. rewrite Hsection.
  destruct (matching_keys scripts') as [|k ks] eqn:Hkeys; [done|]. exfalso.
  assert (k ∈ matching_keys scripts') as Hk by (rewrite Hkeys; apply list_elem_of_here).
  apply elem_of_matching_keys in Hk as [Hk _].
  destruct (Hmatch k Hk) as [Hk0 Hnotin]. apply Hnotin.
  apply is_match_true in Hk0 as (script & Hget & _). by eapply obj_get_is_key.
Qed.

Lemma revert_idempotent_example :
  exists proj',
    unpatchXcodeBuildScripts mixed_project = Ok proj'
    /\ unpatchXcodeBuildScripts proj' = Ok proj'.
Proof.
  eexists. split; [exact revert_on_mixed_project|].
  exact (revert_idempotent _ _ revert_on_mixed_project).
Defined.

Lemma revert_only_removes_example :
  exists proj',
    unpatchXcodeBuildScripts two_target_project = Ok proj'
    /\ shell_script_section proj' `sublist_of` shell_script_section two_target_project
    /\ obj_get (js "T2") (PBXNativeTarget proj')
       = obj_get (js "T2") (PBXNativeTarget two_target_project).
Proof.
  eexists. split; [exact revert_on_two_target_project|].
  destruct (revert_only_removes _ _ revert_on_two_target_project)
    as (Hsub & _ & Hothers & _).
  split; [exact Hsub|]. by apply Hothers.
Defined.

(** When the first target has no entry in [PBXNativeTarget] (it is of
    another kind of target), Revert on a descriptor with a matching script
    throws a [TypeError] at the first match; [unpatchXcodeProj] then neither
    resolves nor rejects. *)
Lemma unpatch_keys_throws firstTarget nativeTargets keys : forall scripts,
  obj_get firstTarget nativeTargets = None ->
  (exists key, key ∈ keys /\ is_match scripts key = true) ->
  unpatch_keys firstTarget keys (scripts, nativeTargets) = Throw TypeError.
Proof.
  induction keys as [|key keys IH]; intros scripts Hnone (k & Hin & Hk).
  { by apply elem_of_nil in Hin. }
  cbn [unpatch_keys]. unfold unpatch_key.
  destruct (is_match scripts key) eqn:Hkey.
  - apply is_match_true in Hkey as (script & -> & ->).
    unfold splice_first_target. by rewrite Hnone.
  - assert (k ∈ keys) as Hin'.
    { apply elem_of_cons in Hin as [->|Hin]; [congruence | done]. }
    unfold is_match in Hkey.
    destruct (obj_get key scripts) as [[text|script]|]; cbn [bind];
      try (apply IH; [done | by exists k]).
    rewrite Hkey. cbn [bind]. apply IH; [done | by exists k].
Qed.

Theorem revert_without_first_target `{Library} (contents : list N) (proj : Project) :
  parse contents = Ok proj ->
  obj_get (firstTargetUuid proj) (PBXNativeTarget proj) = None ->
  matching_keys (shell_script_section proj) <> [] ->
  unpatchXcodeBuildScripts proj = Throw TypeError
  /\ unpatchXcodeProj contents = Uncaught TypeError.
Proof.
  intros Hparse Hnone Hmatch.
  assert (unpatchXcodeBuildScripts proj = Throw TypeError) as Hthrow.
  { unfold unpatchXcodeBuildScripts. rewrite unpatch_keys_throws; [done..|].
    destruct (matching_keys (shell_script_section proj)) as [|k ks] eqn:Hkeys; [done|].
    exists k. apply and_comm, elem_of_matching_keys. rewrite Hkeys.
    apply list_elem_of_here. }
  split; [done|]. unfold unpatchXcodeProj. by rewrite Hparse, Hthrow.
Qed.

Lemma revert_without_first_target_example :
  unpatchXcodeBuildScripts aggregate_first_project = Throw TypeError
  /\ @unpatchXcodeProj reference_library
       (@writeSync reference_library aggregate_first_project) = Uncaught TypeError.
Proof.
  apply (@revert_without_first_target reference_library).
  - apply reference_law.
  - reflexivity.
  - by vm_compute.
Defined.

End RevertExtras.

(** ** Apply and Revert together *)
Module RoundTripExtras.
Import Js JsObject JsObjectFacts RegExp Xcode Cordova Samples Reference.
Import Recognition ApplyFacts RevertFacts EngineFacts RevertExtras.

Lemma bind_assoc {A B C : Type} (m : result A) (f : A -> result B) (g : B -> result C) :
  bind (bind m f) g = bind m (fun a => bind (f a) g).
Proof. by destruct m. Qed.

Lemma unpatch_keys_app firstTarget keys1 keys2 : forall st,
  unpatch_keys firstTarget (keys1 ++ keys2) st
  = bind (unpatch_keys firstTarget keys1 st) (unpatch_keys firstTarget keys2).
Proof.
  induction keys1 as [|key keys1 IH]; intros st; [done|].
  cbn [app unpatch_keys]. rewrite bind_assoc.
  destruct (unpatch_key firstTarget st key) as [st1|e]; [|done].
  cbn [bind]. apply IH.
Qed.

Lemma obj_delete_absent {V : Type} (k : list N) (o : list (list N * V)) :
  obj_get k o = None -> obj_delete k o = o.
Proof.
  intros Hnone%obj_get_None. unfold obj_delete. apply filter_all.
  intros [j v] Hin Heq. simpl in Heq. subst j. apply Hnone. unfold obj_keys.
  apply list_elem_of_fmap. by exists (k, v).
Qed.

Lemma splice_value_snoc key label phases :
  key ∉ map value phases ->
  splice_value key (phases ++ [{| value := key; comment := label |}]) = phases.
Proof.
  induction phases as [|r phases IH]; simpl.
  - intros _. by rewrite decide_True.
  - intros [Hr Hphases]%not_elem_of_cons.
    rewrite decide_False by congruence. by rewrite IH.
Qed.

(** The splice that follows the push of Apply gives the target section
    back. *)
Lemma splice_after_push uuid label entry firstTarget nativeTargets :
  obj_get firstTarget nativeTargets = Some entry ->
  (forall t phases,
     entry = TargetObject t -> buildPhases t = Some phases ->
     uuid ∉ map value phases) ->
  splice_first_target firstTarget uuid
    (obj_set firstTarget (push_phase {| value := uuid; comment := label |} entry)
             nativeTargets)
  = Ok nativeTargets.
Proof.
  intros Hentry Hnew. unfold splice_first_target. rewrite obj_get_set_eq.
  destruct entry as [text|t]; simpl.
  - by rewrite obj_set_same.
  - destruct (buildPhases t) as [phases|] eqn:Hphases; simpl.
    + rewrite obj_set_set, splice_value_snoc by by eapply Hnew.
      rewrite obj_set_same; [done|]. rewrite Hentry.
      destruct t as [p fields]. simpl in Hphases. by subst p.
    + rewrite Hphases. by rewrite obj_set_same.
Qed.

Lemma apply_adds_phase (proj : Project) (uuid : list N) :
  (forall key script,
     obj_get key (shell_script_section proj) = Some (PhaseObject script) ->
     test apply_pattern (shellScript script) = false) ->
  addNewXcodeBuildPhaseForSymbols uuid (collect_buildScripts proj) proj
  = addBuildPhase uuid (js "PBXShellScriptBuildPhase") upload_label None
      (js "/bin/sh") upload_script proj.
Proof.
  intros Hnone. unfold addNewXcodeBuildPhaseForSymbols.
  destruct (existsb _ (collect_buildScripts proj)) eqn:Hpatched; [|done].
  apply already_patched_iff in Hpatched as (key & script & Hget & _ & Ht).
  rewrite (Hnone key script Hget) in Ht. discriminate Ht.
Qed.

(** Revert on what [addBuildPhase] returns for the upload phase. *)
Lemma unpatch_after_addBuildPhase (proj : Project) (uuid : list N) (entry : target_entry) :
  let section := shell_script_section proj in
  (forall key script,
     obj_get key section = Some (PhaseObject script) ->
     test revert_pattern (shellScript script) = false) ->
  obj_get uuid section = None ->
  obj_get (comment_key uuid) section = None ->
  obj_get (firstTargetUuid proj) (PBXNativeTarget proj) = Some entry ->
  (forall t phases,
     entry = TargetObject t -> buildPhases t = Some phases ->
     uuid ∉ map value phases) ->
  unpatchXcodeBuildScripts
    (addBuildPhase uuid (js "PBXShellScriptBuildPhase") upload_label None
       (js "/bin/sh") upload_script proj)
  = Ok {| PBXShellScriptBuildPhase := Some section;
          PBXNativeTarget := PBXNativeTarget proj;
          firstTargetUuid := firstTargetUuid proj;
          otherSections := otherSections proj |}.
Proof.
  intros section Hnone Hfresh Hfresh_comment Hentry Hnew.
  set (patched := addBuildPhase uuid (js "PBXShellScriptBuildPhase") upload_label None
                    (js "/bin/sh") upload_script proj).
  assert (shell_script_section patched
          = section ++ [(uuid, PhaseObject upload_phase);
                        (comment_key uuid, PhaseComment upload_label)]) as Hsection.
  { by apply addBuildPhase_section. }
  assert (PBXNativeTarget patched
          = obj_set (firstTargetUuid proj)
              (push_phase {| value := uuid; comment := upload_label |} entry)
              (PBXNativeTarget proj)) as Htargets.
  { unfold patched, addBuildPhase. simpl. by rewrite Hentry. }
  unfold unpatchXcodeBuildScripts. rewrite Hsection, Htargets.
  change (firstTargetUuid patched) with (firstTargetUuid proj).
  change (otherSections patched) with (otherSections proj).
  change (PBXShellScriptBuildPhase patched) with (Some (shell_script_section patched)).
  unfold obj_keys. rewrite map_app. fold (obj_keys section).
  rewrite unpatch_keys_app, unpatch_keys_no_match.
  2:{ intros key Hkey. unfold is_match. rewrite obj_get_app.
      destruct (obj_get key section) as [[text|script]|] eqn:Hget; [done| |].
      - by apply (Hnone key).
      - apply obj_get_None in Hget. done. }
  cbn [bind map fst unpatch_keys]. unfold unpatch_key at 1.
  rewrite obj_get_app, Hfresh. cbn [obj_get]. rewrite decide_True by done.
  assert (test revert_pattern (shellScript upload_phase) = true) as -> by by vm_compute.
  rewrite splice_after_push by done. cbn [bind].
  assert (obj_delete (comment_key uuid)
            (obj_delete uuid
               (section ++ [(uuid, PhaseObject upload_phase);
                            (comment_key uuid, PhaseComment upload_label)]))
          = section) as ->.
  { unfold obj_delete. rewrite !list.filter_app.
    fold (obj_delete uuid section). rewrite (obj_delete_absent uuid section) by done.
    fold (obj_delete (comment_key uuid) section).
    rewrite (obj_delete_absent _ section) by done.
    rewrite filter_cons_False by (simpl; intros Hne; by apply Hne).
    rewrite filter_cons_True by (simpl; intros Heq; by apply (comment_key_ne uuid)).
    rewrite filter_nil, filter_cons_False by (simpl; intros Hne; by apply Hne).
    by rewrite filter_nil, app_nil_r. }
  unfold unpatch_key. by rewrite Hfresh_comment.
Qed.

Lemma no_apply_no_revert (section : obj phase_entry) :
  (forall key script,
     obj_get key section = Some (PhaseObject script) ->
     test apply_pattern (shellScript script) = false) ->
  forall key script,
    obj_get key section = Some (PhaseObject script) ->
    test revert_pattern (shellScript script) = false.
Proof.
  intros Hnone key script Hget. apply not_true_is_false.
  intros Ht%revert_implies_apply. rewrite (Hnone key script Hget) in Ht.
  discriminate Ht.
Qed.



(** *** The invariants of the section *)

Lemma obj_get_NoDup {V : Type} (k : list N) (v : V) (o : list (list N * V)) :
  NoDup (obj_keys o) -> (k, v) ∈ o -> obj_get k o = Some v.
Proof.
  induction o as [|[k' v'] o IH]; simpl.
  - intros _ Hin. by apply elem_of_nil in Hin.
  - intros [Hnotin Hnd]%list.NoDup_cons [[= -> ->]|Hin]%elem_of_cons.
    + by rewrite decide_True.
    + rewrite decide_False; [by apply IH|].
      intros ->. apply Hnotin. apply list_elem_of_fmap. by exists (k, v).
Qed.

Lemma obj_get_sublist {V : Type} (k : list N) (v : V) (o o' : list (list N * V)) :
  NoDup (obj_keys o) -> o' `sublist_of` o ->
  obj_get k o' = Some v -> obj_get k o = Some v.
Proof.
  intros Hnd Hsub Hget%obj_get_Some_elem.
  apply obj_get_NoDup; [done|]. by eapply elem_of_sublist.
Qed.

(** Revert keeps the invariants of the section: where each key has one
    entry and no [_comment] key of an object holds an object, the same is
    true of the section Revert returns. *)
Theorem revert_keeps_invariants (proj proj' : Project) :
  NoDup (obj_keys (shell_script_section proj)) ->
  well_paired (shell_script_section proj) = true ->
  unpatchXcodeBuildScripts proj = Ok proj' ->
  NoDup (obj_keys (shell_script_section proj'))
  /\ well_paired (shell_script_section proj') = true.
Proof.
  intros Hnd Hpaired
    (scripts' & targets' & Hloop & -> & _)%unpatchXcodeBuildScripts_inv.
  apply unpatch_keys_ok in Hloop as (Hsub & _).
  split.
  - eapply sublist_NoDup; [exact Hnd|]. by apply (fmap_sublist fst).
  - unfold well_paired. apply forallb_forall. intros key _.
    destruct (obj_get key scripts') as [[text|script]|] eqn:Hget; [done| |done].
    destruct (obj_get (comment_key key) scripts')
      as [[text|script']|] eqn:Hcomment; [done| |done].
    exfalso.
    apply (well_paired_spec _ key script Hpaired
             (obj_get_sublist _ _ _ _ Hnd Hsub Hget) script').
    by apply (obj_get_sublist _ _ _ _ Hnd Hsub).
Qed.

Lemma revert_keeps_invariants_example :
  exists proj',
    unpatchXcodeBuildScripts mixed_project = Ok proj'
    /\ NoDup (obj_keys (shell_script_section proj'))
    /\ well_paired (shell_script_section proj') = true.
Proof.
  eexists. split; [exact revert_on_mixed_project|].
  apply (revert_keeps_invariants mixed_project).
  - apply (bool_decide_unpack _). by vm_compute.
  - by vm_compute.
  - exact revert_on_mixed_project.
Defined.

(** *** At the level of the file *)

Section RoundTrip.
Context `{Library}.
Context (parse_writeSync : forall proj, parse (writeSync proj) = Ok proj).

(** Apply, then Revert, on a file: when the file holds the bytes the library
    writes for its descriptor, the descriptor has a shell-script section in
    which no script matches Apply's pattern, and the new id is in use
    nowhere, the file ends with the bytes it started with. *)
Theorem revert_after_apply_restores_file (contents uuid : list N) (proj : Project)
    (entry : target_entry) :
  parse contents = Ok proj ->
  writeSync proj = contents ->
  is_Some (PBXShellScriptBuildPhase proj) ->
  (forall key script,
     obj_get key (shell_script_section proj) = Some (PhaseObject script) ->
     test apply_pattern (shellScript script) = false) ->
  obj_get uuid (shell_script_section proj) = None ->
  obj_get (comment_key uuid) (shell_script_section proj) = None ->
  obj_get (firstTargetUuid proj) (PBXNativeTarget proj) = Some entry ->
  (forall t phases,
     entry = TargetObject t -> buildPhases t = Some phases ->
     uuid ∉ map value phases) ->
  let applied := file_after contents (patchXcodeProj uuid contents) in
  file_after applied (unpatchXcodeProj applied) = contents.
Proof using parse_writeSync.
  intros Hparse Hbytes [section Hsection] Hnone Hfresh Hfresh_comment Hentry Hnew applied.
  set (patched := addNewXcodeBuildPhaseForSymbols uuid (collect_buildScripts proj) proj).
  assert (applied = writeSync patched) as ->.
  { unfold applied, patchXcodeProj. rewrite Hparse. fold patched.
    destruct (str_eqb (writeSync patched) contents) eqn:Heq; [|done].
    simpl. symmetry. by apply bool_decide_eq_true in Heq. }
  assert (unpatchXcodeBuildScripts patched = Ok proj) as Hrevert.
  { unfold patched. rewrite (apply_adds_phase proj uuid Hnone).
    rewrite (unpatch_after_addBuildPhase proj uuid entry);
      [|by apply no_apply_no_revert|done..].
    f_equal. destruct proj as [s t f o]. simpl in *.
    unfold shell_script_section. simpl. by rewrite Hsection. }
  rewrite (unpatchXcodeProj_parsed _ patched proj (parse_writeSync patched) Hrevert).
  simpl. exact Hbytes.
Qed.

End RoundTrip.

Lemma revert_after_apply_restores_file_example :
  let contents := @writeSync reference_library echo_project in
  let applied := file_after contents (@patchXcodeProj reference_library new_uuid contents) in
  file_after applied (@unpatchXcodeProj reference_library applied) = contents.
Proof.
  apply (@revert_after_apply_restores_file reference_library reference_law
           _ new_uuid echo_project
           (app_target [ref (js "SRC") (js "Sources"); ref (js "ECH") (js "Echo")])).
  - apply reference_law.
  - reflexivity.
  - by eexists.
  - intros key script Hget. simpl in Hget.
    repeat (case_decide; [injection Hget as <- || discriminate Hget; by vm_compute|]).
    discriminate Hget.
  - reflexivity.
  - reflexivity.
  - reflexivity.
  - intros t phases [= <-] [= <-]. simpl.
    intros Hin. repeat (apply elem_of_cons in Hin as [Hin|Hin]; [discriminate Hin|]).
    by apply elem_of_nil in Hin.
Defined.

End RoundTripExtras.

(** ** More on [emit]: what a unit reports, and when [emit] is fulfilled *)
Module OrchestratorExtras.
Import Js RegExp Xcode Cordova Orchestrator OrchestratorFacts.








(** Whatever the awaited calls answer, [emit] is fulfilled once every unit
    has had two moves for each of its awaited calls and one more: five for
    [ios], three for another platform. *)
Theorem emit_fulfilled_within (platforms : list (list N))
    (schedule : list (nat * option error)) :
  (forall k platform,
     platforms !! k = Some platform ->
     2 * length (unit_body platform) + 1 <= length (own_answers k schedule)) ->
  emit_promise (emit platforms schedule) = Fulfilled.
Proof.
  intros Hmoves. unfold emit, emit_promise.
  apply promise_all_fulfilled; [apply run_not_rejected, emit_start_not_rejected|].
  apply forallb_forall. intros u Hu.
  apply list_elem_of_In, list_elem_of_lookup in Hu as [k Hu].
  assert (exists platform, platforms !! k = Some platform) as [platform Hk].
  { apply lookup_lt_is_Some_2. apply lookup_lt_Some in Hu.
    rewrite <- (length_map fst), run_platforms in Hu.
    unfold emit_start in Hu. simpl in Hu. by rewrite !length_map in Hu. }
  destruct (run_unit schedule (emit_start platforms) k platform _
              (emit_start_lookup platforms k platform Hk)) as [Hst _].
  rewrite Hu in Hst. injection Hst as ->. simpl.
  apply steps_left_zero.
  pose proof (steps_left_exec k platform (own_answers k schedule)
                (Ready (unit_body platform))) as Hle.
  specialize (Hmoves k platform Hk). simpl in Hle. lia.
Qed.

(** Five moves of [ios], of which the write fails, and three of [android]. *)
Lemma emit_fulfilled_within_example :
  emit_promise
    (emit [js "ios"; js "android"]
          [(0, None); (1, None); (0, None); (0, None); (1, None);
           (0, Some WriteError); (1, None); (0, None)])
  = Fulfilled.
Proof.
  apply emit_fulfilled_within.
  intros [|[|k]] platform Hk; simpl in Hk.
  - injection Hk as <-. vm_compute. lia.
  - injection Hk as <-. vm_compute. lia.
  - discriminate Hk.
Defined.

End OrchestratorExtras.
